(** * The per-document indexing pipeline of [indexer/indexer.c]

    A shallow embedding of the indexer: the two process-wide counters
    ([prev_docID], [cur_position]) and the static read buffer are fields of an
    explicit state; every call the indexer makes on one of its stores
    (term index, math index, offset store, the two blob indices) is appended
    to a trace, oldest call first.  The stores themselves, the TeX parser,
    the segmenter, the JSON parser and the compressor live outside this
    file of the repository: they are taken as a record of collaborators,
    and what a store answers is a function of the calls made so far.

    The five store handles set by [indexer_assign] never change afterwards;
    a call in the trace says which store it went to.  The prints under
    [DEBUG_INDEXER] are left out; the other prints go to the console of the
    state.  [assert] is live in this file ([NDEBUG] is undefined before
    [assert.h] is included): a failed assertion ends the run, as [exit]
    does. *)

From Stdlib Require Import ZArith String Ascii Bool Lia List.
Import ListNotations.

Local Open Scope Z_scope.
Local Open Scope list_scope.

(** ** Machine integers *)

(** Modelled from the spec: [doc_id_t] and [position_t] are typedefs of
    headers that are not under src; section 6 gives the position as an
    unsigned 32-bit integer and the docID as an unsigned integer of fixed
    width, taken here as 32 bits as well.  [uint32_t] is the type of the
    parameters of [save_offset]. *)
Definition uint32_modulus : Z := 2 ^ 32.

Definition wrap32 (x : Z) : Z := x mod uint32_modulus.

Definition doc_id_t := Z.
Definition position_t := Z.

(** ** Strings *)

Definition nl : string := String (ascii_of_nat 10) EmptyString.

Definition strlen (s : string) : Z := Z.of_nat (String.length s).

(** The bytes of a [char] buffer up to, and without, the first NUL.  A
    static buffer is kept as the bytes written to it so far; as long as these
    are fewer than the buffer has room for, what lies behind them is still
    zero, so the string also ends where they end.  Once the buffer has been
    filled to its last byte this is no longer so: the C string then runs past
    the array, which the embedding does not follow (see
    [buffer_terminated]). *)
Fixpoint c_str (buf : string) : string :=
  match buf with
  | EmptyString => EmptyString
  | String c rest =>
      if Ascii.eqb c zero then EmptyString else String c (c_str rest)
  end.

Fixpoint string_firstn (n : nat) (s : string) : string :=
  match n, s with
  | O, _ => EmptyString
  | S _, EmptyString => EmptyString
  | S n', String c rest => String c (string_firstn n' rest)
  end.

Fixpoint string_skipn (n : nat) (s : string) : string :=
  match n, s with
  | O, _ => s
  | S _, EmptyString => EmptyString
  | S n', String _ rest => string_skipn n' rest
  end.

(** ** Data of the indexer *)

Record offsetmap_from_t := mk_from { from_docID : doc_id_t; from_pos : position_t }.
Record offsetmap_to_t := mk_to { to_offset : Z; to_n_bytes : Z }.

(** The collection of structural paths of a parsed expression; opaque here. *)
Inductive subpaths_t := Subpaths (paths : list string).

Inductive parser_retcode := PARSER_RETCODE_SUCC | PARSER_RETCODE_ERR.

Record tex_parse_ret := mk_parse_ret
  { code : parser_retcode; subpaths : subpaths_t; msg : string }.

Record text_seg := mk_seg { seg_str : string; seg_offset : Z; seg_n_bytes : Z }.

Inductive lex_slice_type :=
| LEX_SLICE_TYPE_MATH
| LEX_SLICE_TYPE_TEXT
| LEX_SLICE_TYPE_ENG_TEXT
| LEX_SLICE_TYPE_other (tag : Z).

Record lex_slice := mk_slice
  { mb_str : string; slice_offset : Z; slice_type : lex_slice_type }.

(** A lexer reads the text and hands its slices, left to right, to
    [indexer_handle_slice]. *)
Definition text_lexer := string -> list lex_slice.

Inductive blob_index_t := blob_index_url | blob_index_txt.

(** JSON values as the yajl tree has them. *)
#[local] Set Warnings "-register-all".
Inductive yajl_val :=
| yajl_t_string (s : string)
| yajl_t_number (n : Z)
| yajl_t_object (members : list (string * yajl_val))
| yajl_t_array (items : list yajl_val)
| yajl_t_true
| yajl_t_false
| yajl_t_null.
#[local] Set Warnings "register-all".

(** ** Calls on the stores *)

Inductive event :=
| term_index_doc_begin_call
| term_index_doc_add_call (term : string)
| term_index_doc_end_call (ret : doc_id_t)
| term_index_maintain_call (ret : bool)
| math_index_add_tex_call (docID : doc_id_t) (pos : position_t) (sp : subpaths_t)
                          (ret : Z)
| subpaths_release_call (sp : subpaths_t)
| keyval_db_put_call (from : offsetmap_from_t) (to : offsetmap_to_t) (err : bool)
| keyval_db_flush_call
| blob_index_write_call (bi : blob_index_t) (docID : doc_id_t)
                        (payload : string) (size : Z)
| sleep_call (seconds : Z).

Inductive output :=
| to_stdout (s : string)
| to_stderr (s : string).

(** ** Collaborators *)

Record collaborators := mk_collaborators
  { MAX_CORPUS_FILE_SZ : nat;
    tex_parse : string -> tex_parse_ret;
    strip_math_tag : string -> string;
    eng_to_lower_case : string -> string;
    text_segment : string -> list text_seg;
    codec_compress : string -> string;
    yajl_tree_parse : string -> string + yajl_val;
    fmemopen_ok : string -> bool;
    (* what math_index_add_tex reports; the indexer does not look at it *)
    math_index_add_tex :
      list event -> doc_id_t -> position_t -> subpaths_t -> Z;
    (* nonzero return of keyval_db_put, as a function of the calls so far *)
    keyval_db_put : list event -> offsetmap_from_t -> offsetmap_to_t -> bool;
    keyval_db_last_err : list event -> string;
    term_index_doc_end : list event -> doc_id_t;
    term_index_maintain : list event -> bool }.

(** ** State and the monad of the indexer *)

Record indexer_state := mk_state
  { prev_docID : doc_id_t;        (* docID just indexed *)
    cur_position : position_t;
    doc_json : string;            (* static buffer of indexer_index_json *)
    trace : list event;
    console : list output }.

Definition initial_state : indexer_state :=
  {| prev_docID := 0; cur_position := 0; doc_json := EmptyString;
     trace := []; console := [] |}.

Inductive fatal :=
| assert_failed (expr : string)
| exit_failure.

Inductive result (A : Type) :=
| Ok (a : A) (st : indexer_state)
| Fatal (why : fatal) (st : indexer_state).
Arguments Ok {A} a st.
Arguments Fatal {A} why st.

Definition M (A : Type) : Type := indexer_state -> result A.

Definition ret {A} (a : A) : M A := fun st => Ok a st.

Definition bind {A B} (m : M A) (k : A -> M B) : M B :=
  fun st => match m st with
            | Ok a st' => k a st'
            | Fatal why st' => Fatal why st'
            end.

Notation "x <- m ;; k" := (bind m (fun x => k))
  (at level 61, m at next level, right associativity).
Notation "m ;;; k" := (bind m (fun _ => k))
  (at level 61, right associativity).

Definition get : M indexer_state := fun st => Ok st st.

Definition abort {A} (why : fatal) : M A := fun st => Fatal why st.

Definition assert (b : bool) (expr : string) : M unit :=
  if b then ret tt else abort (assert_failed expr).

Definition call (e : event) : M unit := fun st =>
  Ok tt {| prev_docID := prev_docID st; cur_position := cur_position st;
           doc_json := doc_json st; trace := trace st ++ [e];
           console := console st |}.

Definition print (o : output) : M unit := fun st =>
  Ok tt {| prev_docID := prev_docID st; cur_position := cur_position st;
           doc_json := doc_json st; trace := trace st;
           console := console st ++ [o] |}.

Definition set_prev_docID (d : doc_id_t) : M unit := fun st =>
  Ok tt {| prev_docID := d; cur_position := cur_position st;
           doc_json := doc_json st; trace := trace st;
           console := console st |}.

Definition set_cur_position (p : position_t) : M unit := fun st =>
  Ok tt {| prev_docID := prev_docID st; cur_position := p;
           doc_json := doc_json st; trace := trace st;
           console := console st |}.

Definition set_doc_json (buf : string) : M unit := fun st =>
  Ok tt {| prev_docID := prev_docID st; cur_position := cur_position st;
           doc_json := buf; trace := trace st;
           console := console st |}.

Fixpoint foreach {A} (f : A -> M unit) (l : list A) : M unit :=
  match l with
  | [] => ret tt
  | a :: l' => f a ;;; foreach f l'
  end.

(** ** The indexer *)

Section Indexer.

Variable E : collaborators.

(** [prev_docID + 1] is computed in [doc_id_t].  [codec_compress] is given
    the whole string: where [compress] is set, [str_sz] is [strlen str]. *)
Definition index_blob (bi : blob_index_t) (str : string) (str_sz : Z)
    (compress : bool) : M unit :=
  st <- get ;;
  if compress then
    let compressed := codec_compress E str in
    let compressed_sz := strlen compressed in
    call (blob_index_write_call bi (wrap32 (prev_docID st + 1))
            compressed compressed_sz)
  else
    call (blob_index_write_call bi (wrap32 (prev_docID st + 1)) str str_sz).

(** Both parameters are [uint32_t]: a wider argument is truncated. *)
Definition save_offset (offset n_bytes : Z) : M bool :=
  st <- get ;;
  let from := {| from_docID := wrap32 (prev_docID st + 1);
                 from_pos := cur_position st |} in
  let to := {| to_offset := wrap32 offset; to_n_bytes := wrap32 n_bytes |} in
  let err := keyval_db_put E (trace st) from to in
  call (keyval_db_put_call from to err) ;;;
  if err then
    st' <- get ;;
    print (to_stdout ("put error: " ++ keyval_db_last_err E (trace st') ++ nl)) ;;;
    ret true
  else
    ret false.

Definition index_tex (tex : string) (offset n_bytes : Z) : M unit :=
  let parse_ret := tex_parse E tex in
  match code parse_ret with
  | PARSER_RETCODE_SUCC =>
      st <- get ;;
      (* actual tex indexing *)
      call (math_index_add_tex_call (wrap32 (prev_docID st + 1))
              (cur_position st) (subpaths parse_ret)
              (math_index_add_tex E (trace st) (wrap32 (prev_docID st + 1))
                 (cur_position st) (subpaths parse_ret))) ;;;
      call (subpaths_release_call (subpaths parse_ret))
  | _ =>
      print (to_stdout ("parsing TeX (`" ++ tex ++ "') error: "
                          ++ msg parse_ret ++ nl))
  end ;;;
  (* save offset before cur_position increases *)
  _ <- save_offset offset n_bytes ;;
  (* increment position *)
  st <- get ;;
  set_cur_position (wrap32 (cur_position st + 1)).

Definition index_term (term : string) (offset n_bytes : Z) : M unit :=
  (* add term into inverted-index *)
  call (term_index_doc_add_call term) ;;;
  (* save offset before cur_position increases *)
  _ <- save_offset offset n_bytes ;;
  (* increment position *)
  st <- get ;;
  set_cur_position (wrap32 (cur_position st + 1)).

(** The list callback: [pa_extra] points to the offset of the slice. *)
Definition _index_term (slice_offset : Z) (seg : text_seg) : M unit :=
  (* adjust offset relatively to file *)
  let seg_offset' := wrap32 (seg_offset seg + slice_offset) in
  index_term (seg_str seg) seg_offset' (seg_n_bytes seg).

(** The slice is changed in place; the changed slice is the value returned. *)
Definition indexer_handle_slice (slice : lex_slice) : M lex_slice :=
  let str_sz := strlen (mb_str slice) in
  match slice_type slice with
  | LEX_SLICE_TYPE_MATH =>
      call (term_index_doc_add_call "math_exp") ;;;
      (* extract tex from math tag and add it into math-index *)
      let stripped := strip_math_tag E (mb_str slice) in
      index_tex stripped (slice_offset slice) str_sz ;;;
      ret (mk_slice stripped (slice_offset slice) (slice_type slice))
  | LEX_SLICE_TYPE_TEXT =>
      let lowered := eng_to_lower_case E (mb_str slice) in
      let li := text_segment E lowered in
      foreach (_index_term (slice_offset slice)) li ;;;
      ret (mk_slice lowered (slice_offset slice) (slice_type slice))
  | LEX_SLICE_TYPE_ENG_TEXT =>
      let lowered := eng_to_lower_case E (mb_str slice) in
      index_term lowered (slice_offset slice) str_sz ;;;
      ret (mk_slice lowered (slice_offset slice) (slice_type slice))
  | LEX_SLICE_TYPE_other _ =>
      abort (assert_failed "0")
  end.

Definition index_maintain : M unit :=
  st <- get ;;
  let ran := term_index_maintain E (trace st) in
  call (term_index_maintain_call ran) ;;;
  if ran then
    print (to_stdout (String (ascii_of_nat 13) "[index maintaining...]")) ;;;
    call (sleep_call 2) ;;;
    call keyval_db_flush_call
  else
    ret tt.

Fixpoint assoc_member (key : string) (members : list (string * yajl_val))
    : option yajl_val :=
  match members with
  | [] => None
  | (k, v) :: rest => if String.eqb k key then Some v else assoc_member key rest
  end.

Fixpoint yajl_tree_get (n : yajl_val) (path : list string) : option yajl_val :=
  match path with
  | [] => Some n
  | key :: rest =>
      match n with
      | yajl_t_object members =>
          match assoc_member key members with
          | Some v => yajl_tree_get v rest
          | None => None
          end
      | _ => None
      end
  end.

(** [get_json_val] returns the flag and, on success, the string copied to
    [val]. *)
Definition get_json_val (json : string) (path : list string)
    : M (option string) :=
  match yajl_tree_parse E json with
  | inl err_str =>
      print (to_stderr ("parser error: " ++ err_str ++ nl)) ;;;
      ret None
  | inr tr =>
      match yajl_tree_get tr path with
      | Some (yajl_t_string v) => ret (Some (c_str v))
      | _ =>
          print (to_stderr ("JSON node not found." ++ nl)) ;;;
          ret None
      end
  end.

Definition index_text_field (txt : string) (lex : text_lexer) : M unit :=
  let txt_sz := strlen txt in
  (* safe check *)
  if negb (fmemopen_ok E txt) then
    print (to_stderr "fmemopen() function.") ;;;
    abort exit_failure
  else
    (* prepare indexing a document *)
    call term_index_doc_begin_call ;;;
    (* invoke lexer *)
    foreach (fun slice => indexer_handle_slice slice ;;; ret tt) (lex txt) ;;;
    (* index text blob *)
    index_blob blob_index_txt txt txt_sz true ;;;
    (* done indexing this document *)
    st <- get ;;
    let docID := term_index_doc_end E (trace st) in
    call (term_index_doc_end_call docID) ;;;
    assert (docID =? wrap32 (prev_docID st + 1)) "docID == prev_docID + 1" ;;;
    (* update document indexing variables *)
    set_prev_docID docID ;;;
    set_cur_position 0.

(** [fread] of at most [MAX_CORPUS_FILE_SZ] bytes into the static buffer:
    the bytes read replace the head of the buffer, the rest stays. *)
Definition fread (fh : string) (buf : string) : nat * string :=
  let rd := string_firstn (MAX_CORPUS_FILE_SZ E) fh in
  (String.length rd, (rd ++ string_skipn (String.length rd) buf)%string).

(** The string handed to [get_json_val] is the C string in [doc_json]:
    [fread] writes no NUL, so it is the bytes just read followed by what
    earlier reads left behind them.  [c_str buf] is that string as long as
    the buffer was never filled ([buffer_terminated]). *)
Definition indexer_index_json (fh : string) (lex : text_lexer) : M unit :=
  let url_path := ["url"%string] in
  let txt_path := ["text"%string] in
  st <- get ;;
  let (rd_sz, buf) := fread fh (doc_json st) in
  set_doc_json buf ;;;
  if Nat.eqb rd_sz (MAX_CORPUS_FILE_SZ E) then
    print (to_stderr ("corpus file too large!" ++ nl))
  else
    url <- get_json_val (c_str buf) url_path ;;
    match url with
    | None => ret tt
    | Some url_field =>
        txt <- get_json_val (c_str buf) txt_path ;;
        match txt with
        | None => ret tt
        | Some txt_field =>
            (* URL blob indexing, it is done prior than text indexing
               because prev_docID is not updated at this point. *)
            index_blob blob_index_url url_field (strlen url_field) false ;;;
            (* text indexing *)
            index_text_field txt_field lex ;;;
            (* maintain index (e.g. optimize, merge...) *)
            index_maintain
        end
    end.

End Indexer.

(** The caller's loop: one call of [indexer_index_json] per corpus file,
    each with the lexer the caller picks for it. *)
Definition index_corpus (E : collaborators)
    (files : list (string * text_lexer)) : M unit :=
  foreach (fun f => indexer_index_json E (fst f) (snd f)) files.

(** ** Reading the trace *)

(** The docID the indexer files the document in progress under. *)
Definition predicted_docID (st : indexer_state) : doc_id_t :=
  wrap32 (prev_docID st + 1).

Definition result_state {A} (r : result A) : indexer_state :=
  match r with
  | Ok _ st => st
  | Fatal _ st => st
  end.

(** The offset-store writes attempted, as (key, value, error flag). *)
Definition offset_puts (evs : list event)
    : list (offsetmap_from_t * offsetmap_to_t * bool) :=
  flat_map (fun e => match e with
                     | keyval_db_put_call f t err => [(f, t, err)]
                     | _ => []
                     end) evs.

(** The offset entries created: the writes the store accepted. *)
Definition offset_entries (evs : list event)
    : list (offsetmap_from_t * offsetmap_to_t) :=
  flat_map (fun e => match e with
                     | keyval_db_put_call f t false => [(f, t)]
                     | _ => []
                     end) evs.

Definition put_positions (evs : list event) : list position_t :=
  map (fun p => from_pos (fst (fst p))) (offset_puts evs).

(** The terms added to the term index, in the order of their positions. *)
Definition doc_terms (evs : list event) : list string :=
  flat_map (fun e => match e with
                     | term_index_doc_add_call t => [t]
                     | _ => []
                     end) evs.

Definition math_adds (evs : list event)
    : list (doc_id_t * position_t * subpaths_t) :=
  flat_map (fun e => match e with
                     | math_index_add_tex_call d p sp _ => [(d, p, sp)]
                     | _ => []
                     end) evs.

Definition subpaths_released (evs : list event) : list subpaths_t :=
  flat_map (fun e => match e with
                     | subpaths_release_call sp => [sp]
                     | _ => []
                     end) evs.

Definition blob_writes (evs : list event)
    : list (blob_index_t * doc_id_t * string) :=
  flat_map (fun e => match e with
                     | blob_index_write_call bi d payload _ => [(bi, d, payload)]
                     | _ => []
                     end) evs.

(** The docIDs returned by [term_index_doc_end]. *)
Definition doc_end_rets (evs : list event) : list doc_id_t :=
  flat_map (fun e => match e with
                     | term_index_doc_end_call d => [d]
                     | _ => []
                     end) evs.

(** The calls made while the slices of one document are handled. *)
Definition token_event (e : event) : bool :=
  match e with
  | term_index_doc_add_call _ | math_index_add_tex_call _ _ _ _
  | subpaths_release_call _ | keyval_db_put_call _ _ _ => true
  | _ => false
  end.

(** The docID a store write is filed under, for the calls that pass one. *)
Definition keyed_by (d : doc_id_t) (e : event) : Prop :=
  match e with
  | math_index_add_tex_call d' _ _ _ => d' = d
  | keyval_db_put_call f _ _ => from_docID f = d
  | blob_index_write_call _ d' _ _ => d' = d
  | _ => True
  end.

(** Positions [p], [p+1], ... as the counter takes them. *)
Fixpoint pos_seq (p : position_t) (n : nat) : list position_t :=
  match n with
  | O => []
  | S n' => p :: pos_seq (wrap32 (p + 1)) n'
  end.

Fixpoint advance (p : position_t) (n : nat) : position_t :=
  match n with
  | O => p
  | S n' => advance (wrap32 (p + 1)) n'
  end.

(** The offset writes the store refused. *)
Definition refused_puts (evs : list event)
    : list (offsetmap_from_t * offsetmap_to_t) :=
  flat_map (fun e => match e with
                     | keyval_db_put_call f t true => [(f, t)]
                     | _ => []
                     end) evs.

(** The calls made between two states of one run. *)
Definition new_events (st st' : indexer_state) : list event :=
  skipn (length (trace st)) (trace st').

(** What [term_index_doc_end] answered, when it was the last call made. *)
Definition finalization_answer (st st' : indexer_state) : option doc_id_t :=
  match rev (new_events st st') with
  | term_index_doc_end_call d :: _ => Some d
  | _ => None
  end.

(** ** The token phase

    What handling slices does to the state: it appends token events, all
    filed under the predicted docID; each token adds one term and attempts
    one offset write at the position it then gives up. *)

Record token_phase (st st' : indexer_state) (evs : list event) : Prop :=
  { tp_trace : trace st' = trace st ++ evs;
    tp_docID : prev_docID st' = prev_docID st;
    tp_json : doc_json st' = doc_json st;
    tp_events : forallb token_event evs = true;
    tp_keys : Forall (keyed_by (predicted_docID st)) evs;
    tp_positions :
      put_positions evs = pos_seq (cur_position st) (length (offset_puts evs));
    tp_cur : cur_position st' =
             advance (cur_position st) (length (offset_puts evs));
    tp_terms : length (doc_terms evs) = length (offset_puts evs) }.

(** ** Describing runs

    The states a run goes through and the calls it makes, written out so
    that the lemmas below can say what each function of the indexer returns. *)

Section Runs.

Variable E : collaborators.

(** The key and the value of the offset write issued in state [st]. *)
Definition offset_key (st : indexer_state) : offsetmap_from_t :=
  {| from_docID := wrap32 (prev_docID st + 1); from_pos := cur_position st |}.

Definition offset_value (offset n_bytes : Z) : offsetmap_to_t :=
  {| to_offset := wrap32 offset; to_n_bytes := wrap32 n_bytes |}.

(** The state after [evs] were appended to the trace, [out] to the console
    and the position counter was set to [p]. *)
Definition after (st : indexer_state) (evs : list event) (out : list output)
    (p : position_t) : indexer_state :=
  {| prev_docID := prev_docID st; cur_position := p; doc_json := doc_json st;
     trace := trace st ++ evs; console := console st ++ out |}.

Definition put_error_line (tr : list event) : output :=
  to_stdout ("put error: " ++ keyval_db_last_err E tr ++ nl).

Definition parse_error_line (tex : string) (r : tex_parse_ret) : output :=
  to_stdout ("parsing TeX (`" ++ tex ++ "') error: " ++ msg r ++ nl).

(** A math slice: the sentinel term, then the TeX path on the stripped
    body, with the length the slice had before the tag was stripped. *)
Definition sentinel : string := "math_exp".

Definition math_slice_events (sl : lex_slice) (st : indexer_state)
    : list event :=
  let tex := strip_math_tag E (mb_str sl) in
  let r := tex_parse E tex in
  let d := wrap32 (prev_docID st + 1) in
  let tr1 := trace st ++ [term_index_doc_add_call sentinel] in
  let parsed :=
    match code r with
    | PARSER_RETCODE_SUCC =>
        [math_index_add_tex_call d (cur_position st) (subpaths r)
           (math_index_add_tex E tr1 d (cur_position st) (subpaths r));
         subpaths_release_call (subpaths r)]
    | PARSER_RETCODE_ERR => []
    end in
  let value := offset_value (slice_offset sl) (strlen (mb_str sl)) in
  [term_index_doc_add_call sentinel] ++ parsed ++
  [keyval_db_put_call (offset_key st) value
     (keyval_db_put E (tr1 ++ parsed) (offset_key st) value)].

Definition handle (slice : lex_slice) : M unit :=
  indexer_handle_slice E slice ;;; ret tt.

(** The string [get_json_val] copies out, when there is one. *)
Definition json_string (json : string) (path : list string) : option string :=
  match yajl_tree_parse E json with
  | inl _ => None
  | inr tr =>
      match yajl_tree_get tr path with
      | Some (yajl_t_string v) => Some (c_str v)
      | _ => None
      end
  end.

Definition begun (st : indexer_state) : indexer_state :=
  after st [term_index_doc_begin_call] [] (cur_position st).

Definition text_blob (txt : string) (st : indexer_state) : event :=
  blob_index_write_call blob_index_txt (wrap32 (prev_docID st + 1))
    (codec_compress E txt) (strlen (codec_compress E txt)).

Definition url_blob (url : string) (st : indexer_state) : event :=
  blob_index_write_call blob_index_url (wrap32 (prev_docID st + 1))
    url (strlen url).

(** The state in which [term_index_doc_end] is called and answers [d]. *)
Definition ended (txt : string) (st1 : indexer_state) (d : doc_id_t)
    : indexer_state :=
  after st1 [text_blob txt st1; term_index_doc_end_call d] []
    (cur_position st1).

Definition finalized (st2 : indexer_state) (d : doc_id_t) : indexer_state :=
  {| prev_docID := d; cur_position := 0; doc_json := doc_json st2;
     trace := trace st2; console := console st2 |}.

(** A slice whose tag is none of the three the dispatcher knows. *)
Definition unknown_tag (sl : lex_slice) : Prop :=
  exists tag, slice_type sl = LEX_SLICE_TYPE_other tag.

(** The outcomes of [index_text_field] on a text that lexes into [slices],
    once the memory file is open. *)
Inductive text_field_outcome (txt : string) (slices : list lex_slice)
    (st : indexer_state) : result unit -> Prop :=
| unknown_slice (st1 : indexer_state) (evs : list event) :
    token_phase (begun st) st1 evs ->
    Exists unknown_tag slices ->
    text_field_outcome txt slices st (Fatal (assert_failed "0") st1)
| docID_mismatch (st1 : indexer_state) (evs : list event) (d : doc_id_t) :
    token_phase (begun st) st1 evs ->
    d = term_index_doc_end E (trace st1 ++ [text_blob txt st1]) ->
    d <> wrap32 (prev_docID st + 1) ->
    text_field_outcome txt slices st
      (Fatal (assert_failed "docID == prev_docID + 1") (ended txt st1 d))
| docID_match (st1 : indexer_state) (evs : list event) (d : doc_id_t) :
    token_phase (begun st) st1 evs ->
    d = term_index_doc_end E (trace st1 ++ [text_blob txt st1]) ->
    d = wrap32 (prev_docID st + 1) ->
    text_field_outcome txt slices st (Ok tt (finalized (ended txt st1 d) d)).

(** The state once [fread] has filled the head of the static buffer. *)
Definition loaded (fh : string) (st : indexer_state) : indexer_state :=
  {| prev_docID := prev_docID st; cur_position := cur_position st;
     doc_json := snd (fread E fh (doc_json st));
     trace := trace st; console := console st |}.

(** The static buffer still ends in a NUL: no read so far has filled it.  A
    file of [MAX_CORPUS_FILE_SZ] bytes or more fills it, and from then on the
    C string in the buffer runs past the array; what the code parses there is
    outside this embedding.  The statements about the text parsed are made
    under this condition; it is kept by every read of a shorter file. *)
Definition buffer_terminated (st : indexer_state) : Prop :=
  (String.length (doc_json st) < MAX_CORPUS_FILE_SZ E)%nat.

(** The text handed to the JSON parser: the bytes of the file, followed by
    the bytes an earlier, longer file left in the buffer. *)
Definition json_text (fh : string) (st : indexer_state) : string :=
  c_str (doc_json (loaded fh st)).

Definition too_large (fh : string) (st : indexer_state) : bool :=
  Nat.eqb (fst (fread E fh (doc_json st))) (MAX_CORPUS_FILE_SZ E).

Definition url_field (fh : string) (st : indexer_state) : option string :=
  json_string (json_text fh st) ["url"%string].

Definition txt_field (fh : string) (st : indexer_state) : option string :=
  json_string (json_text fh st) ["text"%string].

Definition maintenance_event (e : event) : bool :=
  match e with
  | term_index_maintain_call _ | sleep_call _ | keyval_db_flush_call => true
  | _ => false
  end.

(** The outcomes of [indexer_index_json]. *)
Inductive json_outcome (fh : string) (lex : text_lexer) (st : indexer_state)
    : result unit -> Prop :=
| envelope_rejected (out : list output) :
    too_large fh st = true \/ url_field fh st = None \/ txt_field fh st = None ->
    json_outcome fh lex st
      (Ok tt (after (loaded fh st) [] out (cur_position st)))
| text_field_failed (url txt : string) (out : list output)
    (why : fatal) (st1 : indexer_state) :
    too_large fh st = false ->
    url_field fh st = Some url -> txt_field fh st = Some txt ->
    fmemopen_ok E txt = true ->
    text_field_outcome txt (lex txt)
      (after (loaded fh st) [url_blob url st] out (cur_position st))
      (Fatal why st1) ->
    json_outcome fh lex st (Fatal why st1)
| text_handle_failed (url txt : string) (out : list output) :
    too_large fh st = false ->
    url_field fh st = Some url -> txt_field fh st = Some txt ->
    fmemopen_ok E txt = false ->
    json_outcome fh lex st
      (Fatal exit_failure
         (after (loaded fh st) [url_blob url st] out (cur_position st)))
| document_indexed (url txt : string) (out : list output)
    (st1 : indexer_state) (mevs : list event) (mout : list output) :
    too_large fh st = false ->
    url_field fh st = Some url -> txt_field fh st = Some txt ->
    fmemopen_ok E txt = true ->
    text_field_outcome txt (lex txt)
      (after (loaded fh st) [url_blob url st] out (cur_position st))
      (Ok tt st1) ->
    forallb maintenance_event mevs = true ->
    json_outcome fh lex st (Ok tt (after st1 mevs mout (cur_position st1))).

End Runs.

(** A slice that yields one token: an English-text slice, or a plain-text
    slice that segments into a single text segment. *)
Definition one_token (E : collaborators) (sl : lex_slice) : Prop :=
  slice_type sl = LEX_SLICE_TYPE_ENG_TEXT \/
  (slice_type sl = LEX_SLICE_TYPE_TEXT /\
   length (text_segment E (eng_to_lower_case E (mb_str sl))) = 1%nat).

(** ** A concrete set of collaborators

    Small stand-ins for the stores and parsers, used to run the indexer on
    concrete documents. *)

Module Scenario.

Local Open Scope string_scope.

Definition dq : string := String (ascii_of_nat 34) EmptyString.

Definition lower_ascii (c : ascii) : ascii :=
  let n := nat_of_ascii c in
  if (Nat.leb 65 n && Nat.leb n 90)%bool then ascii_of_nat (n + 32) else c.

Fixpoint lower (s : string) : string :=
  match s with
  | EmptyString => EmptyString
  | String c rest => String (lower_ascii c) (lower rest)
  end.

(** Drops an opening tag of six bytes and a closing tag of seven. *)
Definition strip (s : string) : string :=
  substring 6 (String.length s - 13) s.

(** A parser that rejects the empty string and anything with a backslash
    in front. *)
Definition parse (s : string) : tex_parse_ret :=
  match s with
  | EmptyString => mk_parse_ret PARSER_RETCODE_ERR (Subpaths []) "empty"
  | String c _ =>
      if Ascii.eqb c (ascii_of_nat 92)
      then mk_parse_ret PARSER_RETCODE_ERR (Subpaths []) "syntax error"
      else mk_parse_ret PARSER_RETCODE_SUCC (Subpaths [s]) EmptyString
  end.

(** Words between blanks, with the offset of each in the slice. *)
Fixpoint words (s : string) (at_ : Z) (word : string) (word_at : Z)
    : list text_seg :=
  let flush := match word with
               | EmptyString => []
               | _ => [mk_seg word word_at (strlen word)]
               end in
  match s with
  | EmptyString => flush
  | String c rest =>
      if Ascii.eqb c " "
      then (flush ++ words rest (at_ + 1) EmptyString (at_ + 1))%list
      else words rest (at_ + 1) (word ++ String c EmptyString) word_at
  end.

Definition segment (s : string) : list text_seg := words s 0 EmptyString 0.

Definition text : string := "The <math>x^2</math> is positive".

Definition envelope : string :=
  "{" ++ dq ++ "url" ++ dq ++ ":" ++ dq ++ "http://x" ++ dq ++ ","
      ++ dq ++ "text" ++ dq ++ ":" ++ dq ++ text ++ dq ++ "}".

Definition no_text : string :=
  "{" ++ dq ++ "url" ++ dq ++ ":" ++ dq ++ "http://x" ++ dq ++ "}".

(** A JSON parser that knows the envelopes above. *)
Definition parse_json (json : string) : string + yajl_val :=
  if String.eqb json envelope then
    inr (yajl_t_object [("url", yajl_t_string "http://x");
                        ("text", yajl_t_string text)])
  else if String.eqb json no_text then
    inr (yajl_t_object [("url", yajl_t_string "http://x")])
  else inl "lexical error: invalid char in json text.".

Definition lexer : text_lexer := fun txt =>
  if String.eqb txt text then
    [mk_slice "The " 0 LEX_SLICE_TYPE_ENG_TEXT;
     mk_slice "<math>x^2</math>" 4 LEX_SLICE_TYPE_MATH;
     mk_slice " is positive" 20 LEX_SLICE_TYPE_TEXT]
  else [].

(** The term index hands out [first], [first + 1], ... ; the offset store
    refuses every write when [put_fails]. *)
Definition stores (first : doc_id_t) (put_fails : bool) : collaborators :=
  {| MAX_CORPUS_FILE_SZ := 1024;
     tex_parse := parse;
     strip_math_tag := strip;
     eng_to_lower_case := lower;
     text_segment := segment;
     codec_compress := fun s => "gz:" ++ s;
     yajl_tree_parse := parse_json;
     fmemopen_ok := fun _ => true;
     math_index_add_tex := fun _ _ _ _ => 0;
     keyval_db_put := fun _ _ _ => put_fails;
     keyval_db_last_err := fun _ => "IO error";
     term_index_doc_end :=
       fun tr => wrap32 (first + Z.of_nat (length (doc_end_rets tr)));
     term_index_maintain := fun _ => false |}.

Definition fresh : collaborators := stores 1 false.

End Scenario.

(** The state in which all docIDs but the last two have been used. *)
Definition near_wrap : indexer_state :=
  {| prev_docID := 4294967294; cur_position := 0; doc_json := EmptyString;
     trace := []; console := [] |}.

(** A fresh term index and the indexer stay in step: after any number of
    copies of the same document the indexer is back between two documents,
    with as many docIDs used (in the arithmetic of [doc_id_t]). *)
Definition in_step (st : indexer_state) : Prop :=
  wrap32 (1 + Z.of_nat (length (doc_end_rets (trace st)))) =
    wrap32 (prev_docID st + 1) /\
  wrap32 (prev_docID st) = prev_docID st /\
  cur_position st = 0 /\
  (doc_json st = EmptyString \/ doc_json st = Scenario.envelope).

(** ** The claims that fail, as the spec words them *)

(** The claim of C2 as the spec words it: handling the slices of a document
    creates as many offset entries as it consumes positions. *)
Definition offset_coverage (E : collaborators) (slices : list lex_slice)
    (st : indexer_state) : Prop :=
  forall st', foreach (handle E) slices st = Ok tt st' ->
    cur_position st' =
    cur_position st + Z.of_nat (length (offset_entries (new_events st st'))).

(** The claim of C7 as the spec words it: over any corpus, each docID
    returned is the one returned before plus 1. *)
Definition docIDs_increase_without_gaps (E : collaborators)
    (files : list (string * text_lexer)) (st : indexer_state) : Prop :=
  forall st', index_corpus E files st = Ok tt st' ->
  forall i a b,
    nth_error (doc_end_rets (new_events st st')) i = Some a ->
    nth_error (doc_end_rets (new_events st st')) (S i) = Some b ->
    b = a + 1.

(** The claim of C8 as the spec words it: once the TeX parser has returned,
    [index_tex] releases the subpaths of the parse result. *)
Definition subpaths_always_released (E : collaborators) (tex : string)
    (offset n_bytes : Z) (st : indexer_state) : Prop :=
  exists st',
    index_tex E tex offset n_bytes st = Ok tt st' /\
    In (subpaths (tex_parse E tex)) (subpaths_released (new_events st st')).

(** ** The calls of a slice, written out *)

Section SliceCalls.

Variable E : collaborators.

(** The calls of [index_term] on [term], made with trace [tr], docID-to-be
    [d] and position [p]. *)
Definition term_events (tr : list event) (d : doc_id_t) (p : position_t)
    (term : string) (offset n_bytes : Z) : list event :=
  let key := mk_from d p in
  let value := offset_value offset n_bytes in
  [term_index_doc_add_call term;
   keyval_db_put_call key value
     (keyval_db_put E (tr ++ [term_index_doc_add_call term]) key value)].

(** The calls of [list_foreach] with [_index_term] over the segments [li]. *)
Fixpoint seg_events (tr : list event) (d : doc_id_t) (p : position_t)
    (slice_offset : Z) (li : list text_seg) : list event :=
  match li with
  | [] => []
  | seg :: rest =>
      let evs := term_events tr d p (seg_str seg)
                   (wrap32 (seg_offset seg + slice_offset)) (seg_n_bytes seg) in
      evs ++ seg_events (tr ++ evs) d (wrap32 (p + 1)) slice_offset rest
  end.

(** The calls of [indexer_handle_slice] on [sl] in state [st]. *)
Definition slice_events (st : indexer_state) (sl : lex_slice) : list event :=
  let d := wrap32 (prev_docID st + 1) in
  match slice_type sl with
  | LEX_SLICE_TYPE_MATH => math_slice_events E sl st
  | LEX_SLICE_TYPE_TEXT =>
      seg_events (trace st) d (cur_position st) (slice_offset sl)
        (text_segment E (eng_to_lower_case E (mb_str sl)))
  | LEX_SLICE_TYPE_ENG_TEXT =>
      term_events (trace st) d (cur_position st)
        (eng_to_lower_case E (mb_str sl)) (slice_offset sl)
        (strlen (mb_str sl))
  | LEX_SLICE_TYPE_other _ => []
  end.

(** The number of tokens, hence of positions, a slice stands for. *)
Definition slice_tokens (sl : lex_slice) : nat :=
  match slice_type sl with
  | LEX_SLICE_TYPE_MATH => 1
  | LEX_SLICE_TYPE_TEXT =>
      length (text_segment E (eng_to_lower_case E (mb_str sl)))
  | LEX_SLICE_TYPE_ENG_TEXT => 1
  | LEX_SLICE_TYPE_other _ => 0
  end.

(** The calls of [index_maintain] when [term_index_maintain] answers [ran]. *)
Definition maintenance_calls (ran : bool) : list event :=
  term_index_maintain_call ran ::
  (if ran then [sleep_call 2; keyval_db_flush_call] else []).

End SliceCalls.

(** The keys of the offset writes attempted. *)
Definition offset_keys (evs : list event) : list offsetmap_from_t :=
  map (fun p => fst (fst p)) (offset_puts evs).

(** The values of the offset writes attempted. *)
Definition offset_values (evs : list event) : list offsetmap_to_t :=
  map (fun p => snd (fst p)) (offset_puts evs).

(** Every math-index add among [evs] sits on a sentinel term: the add at
    position [p] is the [k]-th token counted from position [p0], and the
    [k]-th term added is the sentinel. *)
Definition sentinel_at (p0 : position_t) (evs : list event) : Prop :=
  forall d p sp,
    In (d, p, sp) (math_adds evs) ->
    exists k, (k < length (doc_terms evs))%nat /\
              p = advance p0 k /\
              nth_error (doc_terms evs) k = Some sentinel.



(** The blob writes a list of docIDs calls for: for each, one to the URL
    blob index and one to the text blob index. *)
Definition blobs_of (ids : list doc_id_t) : list (blob_index_t * doc_id_t) :=
  flat_map (fun d => [(blob_index_url, d); (blob_index_txt, d)]) ids.

Definition blob_keys (evs : list event) : list (blob_index_t * doc_id_t) :=
  map (fun b => (fst (fst b), snd (fst b))) (blob_writes evs).

(** The terms a slice adds to the term index, and the byte ranges it
    records in the offset store, token by token. *)
Definition slice_terms (E : collaborators) (sl : lex_slice) : list string :=
  match slice_type sl with
  | LEX_SLICE_TYPE_MATH => [sentinel]
  | LEX_SLICE_TYPE_TEXT =>
      map seg_str (text_segment E (eng_to_lower_case E (mb_str sl)))
  | LEX_SLICE_TYPE_ENG_TEXT => [eng_to_lower_case E (mb_str sl)]
  | LEX_SLICE_TYPE_other _ => []
  end.

Definition slice_ranges (E : collaborators) (sl : lex_slice)
    : list offsetmap_to_t :=
  match slice_type sl with
  | LEX_SLICE_TYPE_TEXT =>
      map (fun seg => offset_value (wrap32 (seg_offset seg + slice_offset sl))
                        (seg_n_bytes seg))
        (text_segment E (eng_to_lower_case E (mb_str sl)))
  | LEX_SLICE_TYPE_other _ => []
  | _ => [offset_value (slice_offset sl) (strlen (mb_str sl))]
  end.

Ltac same_list :=
  repeat (progress (cbn [app]; rewrite <- ?app_assoc)); reflexivity.

(** * Lemmas *)

(** ** Basic facts *)

Lemma wrap32_range (x : Z) : 0 <= wrap32 x < uint32_modulus.
Proof. unfold wrap32. apply Z.mod_pos_bound. reflexivity. Qed.

Lemma wrap32_small (x : Z) : 0 <= x < uint32_modulus -> wrap32 x = x.
Proof. intros H. unfold wrap32. now apply Z.mod_small. Qed.

Lemma advance_S (p : position_t) (n : nat) :
  advance p (S n) = wrap32 (p + Z.of_nat (S n)).
Proof.
  cbn [advance]. revert p. induction n as [|n IH]; intros p.
  - reflexivity.
  - cbn [advance]. rewrite IH, !Nat2Z.inj_succ.
    unfold wrap32. rewrite Z.add_mod_idemp_l by discriminate. f_equal. lia.
Qed.

Lemma advance_small (p : position_t) (n : nat) :
  0 <= p -> p + Z.of_nat n < uint32_modulus -> advance p n = p + Z.of_nat n.
Proof.
  destruct n as [|n]; intros Hp Hn.
  - simpl. lia.
  - rewrite advance_S. apply wrap32_small. lia.
Qed.

Lemma advance_add (p : position_t) (n m : nat) :
  advance p (n + m) = advance (advance p n) m.
Proof. revert p. induction n as [|n IH]; intros p; simpl; auto. Qed.

Lemma pos_seq_app (p : position_t) (n m : nat) :
  pos_seq p (n + m) = pos_seq p n ++ pos_seq (advance p n) m.
Proof. revert p. induction n as [|n IH]; intros p; simpl; [|rewrite IH]; auto. Qed.

Lemma offset_puts_app (a b : list event) :
  offset_puts (a ++ b) = offset_puts a ++ offset_puts b.
Proof. apply flat_map_app. Qed.

Lemma put_positions_app (a b : list event) :
  put_positions (a ++ b) = put_positions a ++ put_positions b.
Proof. unfold put_positions. now rewrite offset_puts_app, map_app. Qed.

Lemma doc_terms_app (a b : list event) :
  doc_terms (a ++ b) = doc_terms a ++ doc_terms b.
Proof. apply flat_map_app. Qed.

Lemma doc_end_rets_app (a b : list event) :
  doc_end_rets (a ++ b) = doc_end_rets a ++ doc_end_rets b.
Proof. apply flat_map_app. Qed.

Lemma blob_writes_app (a b : list event) :
  blob_writes (a ++ b) = blob_writes a ++ blob_writes b.
Proof. apply flat_map_app. Qed.

(** Token events leave the blob indices and the document boundaries alone. *)
Lemma token_events_no_doc_end (evs : list event) :
  forallb token_event evs = true -> doc_end_rets evs = [].
Proof.
  induction evs as [|e evs IH]; simpl; auto.
  intros H. apply andb_prop in H as [He Hevs].
  destruct e; simpl in *; try discriminate; auto.
Qed.

Lemma token_events_no_blob (evs : list event) :
  forallb token_event evs = true -> blob_writes evs = [].
Proof.
  induction evs as [|e evs IH]; simpl; auto.
  intros H. apply andb_prop in H as [He Hevs].
  destruct e; simpl in *; try discriminate; auto.
Qed.

Lemma token_phase_refl (st : indexer_state) : token_phase st st [].
Proof.
  constructor; simpl; auto. now rewrite app_nil_r.
Qed.

Lemma token_phase_trans (st st1 st2 : indexer_state) (evs1 evs2 : list event) :
  token_phase st st1 evs1 -> token_phase st1 st2 evs2 ->
  token_phase st st2 (evs1 ++ evs2).
Proof.
  intros [T1 D1 J1 E1 K1 P1 C1 N1] [T2 D2 J2 E2 K2 P2 C2 N2].
  constructor.
  - now rewrite T2, T1, app_assoc.
  - congruence.
  - congruence.
  - now rewrite forallb_app, E1, E2.
  - apply Forall_app. split; auto.
    unfold predicted_docID in *. now rewrite D1 in K2.
  - rewrite put_positions_app, offset_puts_app, length_app, pos_seq_app.
    now rewrite P1, P2, C1.
  - rewrite offset_puts_app, length_app, advance_add. now rewrite C2, C1.
  - rewrite doc_terms_app, offset_puts_app, !length_app. lia.
Qed.

(** ** What one token does *)

Section TokenPaths.

Variable E : collaborators.

Lemma after_nil (st : indexer_state) : after st [] [] (cur_position st) = st.
Proof. destruct st. unfold after. simpl. now rewrite !app_nil_r. Qed.

Lemma save_offset_run (offset n_bytes : Z) (st : indexer_state) :
  let err := keyval_db_put E (trace st) (offset_key st)
               (offset_value offset n_bytes) in
  let put := keyval_db_put_call (offset_key st)
               (offset_value offset n_bytes) err in
  save_offset E offset n_bytes st =
  Ok err (after st [put]
            (if err then [put_error_line E (trace st ++ [put])] else [])
            (cur_position st)).
Proof.
  cbv zeta. unfold save_offset, bind, get, call, print, ret, after,
    offset_key, offset_value, put_error_line.
  destruct (keyval_db_put E (trace st) _ _); simpl; [reflexivity|].
  now rewrite app_nil_r.
Qed.

Lemma index_term_run (term : string) (offset n_bytes : Z)
    (st : indexer_state) :
  let st1 := after st [term_index_doc_add_call term] [] (cur_position st) in
  let err := keyval_db_put E (trace st1) (offset_key st)
               (offset_value offset n_bytes) in
  let put := keyval_db_put_call (offset_key st)
               (offset_value offset n_bytes) err in
  index_term E term offset n_bytes st =
  Ok tt (after st [term_index_doc_add_call term; put]
           (if err then [put_error_line E (trace st1 ++ [put])] else [])
           (wrap32 (cur_position st + 1))).
Proof.
  cbv zeta. unfold index_term.
  unfold bind at 1. unfold call at 1.
  unfold bind at 1. rewrite save_offset_run.
  unfold bind, get, set_cur_position, after, offset_key. simpl.
  rewrite <- ?app_assoc, ?app_nil_r. reflexivity.
Qed.

Lemma index_tex_run (tex : string) (offset n_bytes : Z) (st : indexer_state) :
  let r := tex_parse E tex in
  let add := math_index_add_tex_call (wrap32 (prev_docID st + 1))
               (cur_position st) (subpaths r)
               (math_index_add_tex E (trace st) (wrap32 (prev_docID st + 1))
                  (cur_position st) (subpaths r)) in
  let parsed := match code r with
                | PARSER_RETCODE_SUCC => [add; subpaths_release_call (subpaths r)]
                | PARSER_RETCODE_ERR => []
                end in
  let logged := match code r with
                | PARSER_RETCODE_SUCC => []
                | PARSER_RETCODE_ERR => [parse_error_line tex r]
                end in
  let err := keyval_db_put E (trace st ++ parsed) (offset_key st)
               (offset_value offset n_bytes) in
  let put := keyval_db_put_call (offset_key st)
               (offset_value offset n_bytes) err in
  index_tex E tex offset n_bytes st =
  Ok tt (after st (parsed ++ [put])
           (logged ++
            if err then [put_error_line E (trace st ++ parsed ++ [put])] else [])
           (wrap32 (cur_position st + 1))).
Proof.
  cbv zeta. unfold index_tex.
  destruct (code (tex_parse E tex)).
  - unfold bind at 1. unfold bind at 1, get at 1.
    unfold bind at 1, call at 1. unfold call at 1.
    unfold bind at 1. rewrite save_offset_run.
    unfold bind, get, set_cur_position, after, offset_key. simpl.
    rewrite <- ?app_assoc, ?app_nil_r. reflexivity.
  - unfold bind at 1. unfold print at 1.
    unfold bind at 1. rewrite save_offset_run.
    unfold bind, get, set_cur_position, after, offset_key, parse_error_line.
    simpl. rewrite <- ?app_assoc, ?app_nil_r. reflexivity.
Qed.

End TokenPaths.

Section Slices.

Variable E : collaborators.

Lemma after_after (st : indexer_state) (e1 e2 : list event)
    (o1 o2 : list output) (p1 p2 : position_t) :
  after (after st e1 o1 p1) e2 o2 p2 = after st (e1 ++ e2) (o1 ++ o2) p2.
Proof. unfold after. simpl. now rewrite <- !app_assoc. Qed.

Lemma handle_math_slice (sl : lex_slice) (st : indexer_state) :
  slice_type sl = LEX_SLICE_TYPE_MATH ->
  exists out,
    indexer_handle_slice E sl st =
    Ok (mk_slice (strip_math_tag E (mb_str sl)) (slice_offset sl)
          LEX_SLICE_TYPE_MATH)
       (after st (math_slice_events E sl st) out (wrap32 (cur_position st + 1))).
Proof.
  intros Hty. unfold indexer_handle_slice. rewrite Hty.
  unfold bind at 1, call at 1.
  set (st1 := {| prev_docID := _ |}).
  unfold bind at 1. rewrite index_tex_run.
  replace st1 with (after st [term_index_doc_add_call sentinel] []
                      (cur_position st))
    by (unfold after, st1; now rewrite app_nil_r).
  rewrite after_after. unfold ret, math_slice_events. cbn [app].
  eexists. reflexivity.
Qed.

Lemma math_slice_events_phase (sl : lex_slice) (st : indexer_state)
    (out : list output) :
  token_phase st
    (after st (math_slice_events E sl st) out (wrap32 (cur_position st + 1)))
    (math_slice_events E sl st).
Proof.
  unfold math_slice_events.
  destruct (code (tex_parse E (strip_math_tag E (mb_str sl))));
    constructor; simpl; auto;
    repeat constructor; reflexivity.
Qed.

Lemma index_term_phase (term : string) (offset n_bytes : Z)
    (st : indexer_state) :
  exists st' evs,
    index_term E term offset n_bytes st = Ok tt st' /\
    token_phase st st' evs /\
    doc_terms evs = [term] /\
    map (fun p => fst p) (offset_puts evs) =
      [(offset_key st, offset_value offset n_bytes)].
Proof.
  rewrite index_term_run.
  match goal with
  | |- exists st' evs, Ok tt (after st ?e ?o ?p) = _ /\ _ =>
      exists (after st e o p), e
  end.
  split; [reflexivity|].
  split; [|split; reflexivity].
  constructor; simpl; auto. repeat constructor; reflexivity.
Qed.

(** The segments of a plain-text slice, one term each. *)
Lemma foreach_index_term_phase (slice_offset : Z) (li : list text_seg)
    (st : indexer_state) :
  exists st' evs,
    foreach (_index_term E slice_offset) li st = Ok tt st' /\
    token_phase st st' evs /\
    doc_terms evs = map seg_str li /\
    length (offset_puts evs) = length li.
Proof.
  revert st. induction li as [|seg li IH]; intros st.
  - exists st, []. split; [reflexivity|].
    split; [apply token_phase_refl|]. split; reflexivity.
  - cbn [foreach]. unfold bind at 1. unfold _index_term at 1.
    destruct (index_term_phase (seg_str seg)
                (wrap32 (seg_offset seg + slice_offset))
                (seg_n_bytes seg) st)
      as (st1 & evs1 & Hrun & Hph & Hterms & Hputs).
    rewrite Hrun.
    destruct (IH st1) as (st2 & evs2 & Hrun2 & Hph2 & Hterms2 & Hputs2).
    exists st2, (evs1 ++ evs2). split; [exact Hrun2|].
    split; [eapply token_phase_trans; eauto|].
    split.
    + rewrite doc_terms_app, Hterms, Hterms2. reflexivity.
    + rewrite offset_puts_app, length_app, Hputs2.
      apply (f_equal (@length _)) in Hputs. rewrite length_map in Hputs.
      rewrite Hputs. reflexivity.
Qed.

(** Every slice runs a token phase; only an unknown tag stops the run. *)
Lemma handle_slice_phase (sl : lex_slice) (st : indexer_state) :
  exists evs,
    token_phase st (result_state (indexer_handle_slice E sl st)) evs /\
    match slice_type sl with
    | LEX_SLICE_TYPE_other _ =>
        indexer_handle_slice E sl st = Fatal (assert_failed "0") st
    | _ => exists sl', indexer_handle_slice E sl st =
                       Ok sl' (result_state (indexer_handle_slice E sl st))
    end.
Proof.
  destruct (slice_type sl) eqn:Hty.
  - destruct (handle_math_slice sl st Hty) as [out Hrun].
    rewrite Hrun. cbn [result_state]. eexists. split.
    + apply math_slice_events_phase.
    + eexists. reflexivity.
  - unfold indexer_handle_slice. rewrite Hty. unfold bind.
    destruct (foreach_index_term_phase (slice_offset sl)
                (text_segment E (eng_to_lower_case E (mb_str sl))) st)
      as (st' & evs & Hrun & Hph & _).
    rewrite Hrun. unfold ret. cbn [result_state].
    exists evs. split; [exact Hph|]. eexists. reflexivity.
  - unfold indexer_handle_slice. rewrite Hty. unfold bind.
    destruct (index_term_phase (eng_to_lower_case E (mb_str sl))
                (slice_offset sl) (strlen (mb_str sl)) st)
      as (st' & evs & Hrun & Hph & _).
    rewrite Hrun. unfold ret. cbn [result_state].
    exists evs. split; [exact Hph|]. eexists. reflexivity.
  - unfold indexer_handle_slice. rewrite Hty. unfold abort.
    cbn [result_state]. exists []. split; auto using token_phase_refl.
Qed.

Lemma foreach_handle_cons (sl : lex_slice) (slices : list lex_slice)
    (st : indexer_state) :
  foreach (handle E) (sl :: slices) st =
  match indexer_handle_slice E sl st with
  | Ok _ st1 => foreach (handle E) slices st1
  | Fatal why st1 => Fatal why st1
  end.
Proof.
  cbn [foreach]. unfold bind at 1, handle at 1. unfold bind at 1.
  destruct (indexer_handle_slice E sl st); reflexivity.
Qed.

Lemma foreach_handle_phase (slices : list lex_slice) (st : indexer_state) :
  exists evs,
    token_phase st (result_state (foreach (handle E) slices st)) evs /\
    (forall why st', foreach (handle E) slices st = Fatal why st' ->
                     why = assert_failed "0" /\ Exists unknown_tag slices).
Proof.
  revert st. induction slices as [|sl slices IH]; intros st.
  - exists []. cbn. split; auto using token_phase_refl. discriminate.
  - rewrite foreach_handle_cons.
    destruct (handle_slice_phase sl st) as (evs1 & Hph1 & Hres).
    destruct (indexer_handle_slice E sl st) as [sl' st1|why st1] eqn:Hrun.
    + cbn [result_state] in Hph1.
      destruct (IH st1) as (evs2 & Hph2 & Hwhy).
      exists (evs1 ++ evs2). split; [eapply token_phase_trans; eauto|].
      intros why st' Heq. destruct (Hwhy why st' Heq) as [Hw Hex].
      split; [exact Hw | now apply Exists_cons_tl].
    + cbn [result_state] in *. exists evs1. split; [exact Hph1|].
      intros why' st' Heq. inversion Heq; subst.
      destruct (slice_type sl) eqn:Hty; try (destruct Hres; discriminate).
      split; [congruence|]. apply Exists_cons_hd. now exists tag.
Qed.

(** Slices of the three known kinds are all handled. *)
Lemma foreach_handle_returns (slices : list lex_slice) (st : indexer_state) :
  ~ Exists unknown_tag slices ->
  exists st', foreach (handle E) slices st = Ok tt st'.
Proof.
  intros Hknown.
  destruct (foreach_handle_phase slices st) as (evs & _ & Hwhy).
  destruct (foreach (handle E) slices st) as [[] st'|why st'].
  - now exists st'.
  - destruct (Hwhy _ _ eq_refl) as [_ Hex]. contradiction.
Qed.

End Slices.

(** ** What one document does *)

Section Documents.

Variable E : collaborators.

Lemma get_json_val_run (json : string) (path : list string)
    (st : indexer_state) :
  exists out,
    get_json_val E json path st =
    Ok (json_string E json path) (after st [] out (cur_position st)).
Proof.
  unfold get_json_val, json_string.
  destruct (yajl_tree_parse E json) as [err|tr].
  - eexists. unfold bind, print, ret, after. now rewrite app_nil_r.
  - destruct (yajl_tree_get tr path) as [[]|];
      try (eexists; unfold bind, print, ret, after; now rewrite app_nil_r).
    exists []. now rewrite after_nil.
Qed.

Lemma index_text_field_outcome (txt : string) (lex : text_lexer)
    (st : indexer_state) :
  fmemopen_ok E txt = true ->
  text_field_outcome E txt (lex txt) st (index_text_field E txt lex st).
Proof.
  intros Hopen. unfold index_text_field. rewrite Hopen. cbn [negb].
  unfold bind at 1, call at 1.
  replace {| prev_docID := prev_docID st; cur_position := cur_position st;
             doc_json := doc_json st;
             trace := trace st ++ [term_index_doc_begin_call];
             console := console st |}
    with (begun st) by (unfold begun, after; now rewrite app_nil_r).
  unfold bind at 1. fold (handle E).
  destruct (foreach_handle_phase E (lex txt) (begun st))
    as (evs & Hph & Hwhy).
  destruct (foreach (handle E) (lex txt) (begun st)) as [[] st1|why st1] eqn:Hrun.
  - cbn [result_state] in Hph.
    assert (Hprev : prev_docID st1 = prev_docID st)
      by (rewrite (tp_docID _ _ _ Hph); reflexivity).
    unfold bind at 1, index_blob at 1. unfold bind at 1, get at 1.
    cbv iota. unfold call at 1. unfold bind at 1, get at 1.
    unfold bind at 1, call at 1. cbn [prev_docID trace].
    fold (text_blob E txt st1). rewrite Hprev.
    set (d := term_index_doc_end E (trace st1 ++ [text_blob E txt st1])).
    destruct (Z.eqb_spec d (wrap32 (prev_docID st + 1))) as [Heq|Hne].
    + unfold assert, bind, ret, set_prev_docID, set_cur_position.
      cbn [prev_docID cur_position doc_json trace console].
      replace (Ok tt _) with (Ok tt (finalized (ended E txt st1 d) d)).
      * eapply docID_match; eauto.
      * unfold finalized, ended, after.
        cbn [prev_docID cur_position doc_json trace console].
        now rewrite <- app_assoc, app_nil_r.
    + unfold assert, bind, abort.
      replace (Fatal _ _)
        with (@Fatal unit (assert_failed "docID == prev_docID + 1")
                (ended E txt st1 d)).
      * eapply docID_mismatch; eauto.
      * unfold ended, after.
        cbn [prev_docID cur_position doc_json trace console].
        now rewrite <- app_assoc, app_nil_r, Hprev.
  - cbn [result_state] in Hph. destruct (Hwhy _ _ eq_refl) as [-> Hex].
    eapply unknown_slice; eauto.
Qed.

End Documents.

Section Envelope.

Variable E : collaborators.

Lemma index_maintain_run (st : indexer_state) :
  exists evs out,
    index_maintain E st = Ok tt (after st evs out (cur_position st)) /\
    forallb maintenance_event evs = true.
Proof.
  unfold index_maintain. unfold bind at 1, get at 1.
  unfold bind at 1, call at 1.
  destruct (term_index_maintain E (trace st)).
  - exists [term_index_maintain_call true; sleep_call 2; keyval_db_flush_call].
    eexists. split; [|reflexivity].
    unfold bind, print, call, after. simpl.
    rewrite <- !app_assoc. reflexivity.
  - exists [term_index_maintain_call false], []. split; [|reflexivity].
    unfold ret, after. simpl. now rewrite app_nil_r.
Qed.

Lemma indexer_index_json_outcome (fh : string) (lex : text_lexer)
    (st : indexer_state) :
  json_outcome E fh lex st (indexer_index_json E fh lex st).
Proof.
  unfold indexer_index_json. unfold bind at 1, get at 1.
  pose proof (eq_refl (too_large E fh st)) as Hlarge.
  pose proof (eq_refl (url_field E fh st)) as Hurl.
  pose proof (eq_refl (txt_field E fh st)) as Htxt.
  unfold too_large at 2 in Hlarge.
  unfold url_field at 2, json_text, loaded in Hurl.
  unfold txt_field at 2, json_text, loaded in Htxt.
  cbn [doc_json] in Hurl, Htxt.
  assert (Hload : forall out,
             {| prev_docID := prev_docID st; cur_position := cur_position st;
                doc_json := snd (fread E fh (doc_json st));
                trace := trace st; console := console st ++ out |} =
             after (loaded E fh st) [] out (cur_position st)).
  { intros out. unfold after, loaded. simpl. now rewrite app_nil_r. }
  destruct (fread E fh (doc_json st)) as [rd_sz buf] eqn:Hread.
  cbn [fst snd] in *.
  unfold bind at 1, set_doc_json at 1.
  destruct (Nat.eqb rd_sz (MAX_CORPUS_FILE_SZ E)).
  { symmetry in Hlarge. unfold print. cbn [prev_docID cur_position doc_json trace console].
    rewrite Hload. apply envelope_rejected. now left. }
  unfold bind at 1.
  match goal with
  | |- context [get_json_val E ?j ?p ?s] =>
      destruct (get_json_val_run E j p s) as [out1 Hrun1]; rewrite Hrun1
  end.
  rewrite <- Hurl.
  destruct (url_field E fh st) as [url|] eqn:Hu.
  2:{ unfold ret, after at 1.
      cbn [prev_docID cur_position doc_json trace console].
      rewrite app_nil_r, Hload. apply envelope_rejected. now right; left. }
  unfold bind at 1.
  match goal with
  | |- context [get_json_val E ?j ?p ?s] =>
      destruct (get_json_val_run E j p s) as [out2 Hrun2]; rewrite Hrun2
  end.
  rewrite <- Htxt.
  destruct (txt_field E fh st) as [txt|] eqn:Ht.
  2:{ unfold ret. rewrite after_after. unfold after at 1.
      cbn [prev_docID cur_position doc_json trace console app].
      rewrite app_nil_r, Hload. apply envelope_rejected. now right; right. }
  rewrite after_after. cbn [app].
  unfold bind at 1, index_blob at 1. unfold bind at 1, get at 1.
  cbv iota. unfold call at 1. unfold bind at 1.
  match goal with
  | |- context [index_text_field E txt lex ?s] =>
      replace s with
        (after (loaded E fh st) [url_blob url st] (out1 ++ out2)
           (cur_position st))
        by (unfold after, loaded, url_blob; rewrite Hread; simpl;
            now rewrite ?app_nil_r)
  end.
  destruct (fmemopen_ok E txt) eqn:Hopen.
  - pose proof (index_text_field_outcome E txt lex
                  (after (loaded E fh st) [url_blob url st] (out1 ++ out2)
                     (cur_position st)) Hopen) as Hout.
    destruct (index_text_field E txt lex _) as [[] st1|why st1].
    + destruct (index_maintain_run st1) as (mevs & mout & Hm & Hmevs).
      rewrite Hm. eapply document_indexed; eauto.
    + eapply text_field_failed; eauto.
  - unfold index_text_field. rewrite Hopen. cbn [negb].
    unfold bind, print, abort.
    match goal with
    | |- json_outcome E _ _ _ (Fatal _ ?s) =>
        replace s with
          (after (loaded E fh st) [url_blob url st]
             ((out1 ++ out2) ++ [to_stderr "fmemopen() function."])
             (cur_position st))
          by (unfold after; simpl; now rewrite <- ?app_assoc)
    end.
    eapply text_handle_failed; eauto.
Qed.

End Envelope.

(** ** Runs and what they add to the trace *)

Lemma new_events_app (st st' : indexer_state) (evs : list event) :
  trace st' = trace st ++ evs -> new_events st st' = evs.
Proof.
  intros H. unfold new_events. rewrite H, skipn_app, skipn_all, Nat.sub_diag.
  reflexivity.
Qed.

Lemma new_events_after (st : indexer_state) (evs : list event)
    (out : list output) (p : position_t) :
  new_events st (after st evs out p) = evs.
Proof. now apply new_events_app. Qed.

Lemma token_phase_begun (st st1 : indexer_state) (evs : list event) :
  token_phase (begun st) st1 evs ->
  trace st1 = trace st ++ term_index_doc_begin_call :: evs /\
  prev_docID st1 = prev_docID st /\
  doc_json st1 = doc_json st /\
  doc_end_rets evs = [] /\ blob_writes evs = [] /\
  Forall (keyed_by (wrap32 (prev_docID st + 1))) evs.
Proof.
  intros [T D J Ev K P C N]. unfold begun, after in *. simpl in *.
  repeat split; auto.
  - now rewrite T, <- app_assoc.
  - now apply token_events_no_doc_end.
  - now apply token_events_no_blob.
Qed.

(** ** The calls of one document *)

Section DocumentEvents.

Variable E : collaborators.

Lemma index_maintain_calls (st : indexer_state) :
  exists out,
    index_maintain E st =
    Ok tt (after st (maintenance_calls (term_index_maintain E (trace st)))
             out (cur_position st)).
Proof.
  unfold index_maintain, maintenance_calls.
  unfold bind at 1, get at 1. unfold bind at 1, call at 1.
  destruct (term_index_maintain E (trace st)).
  - eexists. unfold bind, print, call, after. simpl.
    rewrite <- !app_assoc. reflexivity.
  - exists []. unfold ret, after. simpl. now rewrite app_nil_r.
Qed.

Lemma index_text_field_unopened (txt : string) (lex : text_lexer)
    (st : indexer_state) :
  fmemopen_ok E txt = false ->
  index_text_field E txt lex st =
  Fatal exit_failure
    (after st [] [to_stderr "fmemopen() function."] (cur_position st)).
Proof.
  intros Hopen. unfold index_text_field. rewrite Hopen. cbn [negb].
  unfold bind, print, abort, after. now rewrite app_nil_r.
Qed.

Lemma index_text_field_opened (txt : string) (lex : text_lexer)
    (st : indexer_state) :
  fmemopen_ok E txt = true ->
  index_text_field E txt lex st =
  match foreach (handle E) (lex txt) (begun st) with
  | Fatal why st1 => Fatal why st1
  | Ok _ st1 =>
      let d := term_index_doc_end E (trace st1 ++ [text_blob E txt st1]) in
      if d =? wrap32 (prev_docID st1 + 1)
      then Ok tt (finalized (ended E txt st1 d) d)
      else Fatal (assert_failed "docID == prev_docID + 1") (ended E txt st1 d)
  end.
Proof.
  intros Hopen. unfold index_text_field. rewrite Hopen. cbn [negb].
  unfold bind at 1, call at 1.
  replace {| prev_docID := prev_docID st; cur_position := cur_position st;
             doc_json := doc_json st;
             trace := trace st ++ [term_index_doc_begin_call];
             console := console st |}
    with (begun st) by (unfold begun, after; now rewrite app_nil_r).
  unfold bind at 1. fold (handle E).
  destruct (foreach (handle E) (lex txt) (begun st)) as [[] st1|why st1];
    [|reflexivity].
  unfold bind at 1, index_blob at 1. unfold bind at 1, get at 1.
  cbv iota. unfold call at 1. unfold bind at 1, get at 1.
  unfold bind at 1, call at 1. cbn [prev_docID trace].
  fold (text_blob E txt st1). cbv zeta.
  destruct (term_index_doc_end E (trace st1 ++ [text_blob E txt st1])
            =? wrap32 (prev_docID st1 + 1)).
  - unfold assert, bind, ret, set_prev_docID, set_cur_position.
    unfold finalized, ended, after.
    cbn [prev_docID cur_position doc_json trace console].
    now rewrite <- app_assoc, app_nil_r.
  - unfold assert, bind, abort, ended, after.
    cbn [prev_docID cur_position doc_json trace console].
    now rewrite <- app_assoc, app_nil_r.
Qed.

(** An accepted envelope: the URL blob is written, then the text field is
    indexed, then maintenance is looked after. *)
Lemma indexer_index_json_accepted (fh : string) (lex : text_lexer)
    (st : indexer_state) (url txt : string) :
  too_large E fh st = false ->
  url_field E fh st = Some url -> txt_field E fh st = Some txt ->
  exists out,
    indexer_index_json E fh lex st =
    (index_text_field E txt lex ;;; index_maintain E)
      (after (loaded E fh st) [url_blob url st] out (cur_position st)).
Proof.
  intros Hlarge Hurl Htxt.
  unfold indexer_index_json. unfold bind at 1, get at 1.
  unfold too_large in Hlarge.
  unfold url_field, json_text, loaded in Hurl.
  unfold txt_field, json_text, loaded in Htxt.
  cbn [doc_json] in Hurl, Htxt.
  destruct (fread E fh (doc_json st)) as [rd_sz buf] eqn:Hread.
  cbn [fst snd] in *.
  unfold bind at 1, set_doc_json at 1. rewrite Hlarge.
  unfold bind at 1.
  match goal with
  | |- context [get_json_val E ?j ?p ?s] =>
      destruct (get_json_val_run E j p s) as [out1 Hrun1]; rewrite Hrun1
  end.
  rewrite Hurl. unfold bind at 1.
  match goal with
  | |- context [get_json_val E ?j ?p ?s] =>
      destruct (get_json_val_run E j p s) as [out2 Hrun2]; rewrite Hrun2
  end.
  rewrite Htxt, after_after. cbn [app].
  unfold bind at 1, index_blob at 1. unfold bind at 1, get at 1.
  cbv iota. unfold call at 1.
  exists (out1 ++ out2). f_equal.
  unfold after, loaded, url_blob. rewrite Hread. simpl.
  now rewrite ?app_nil_r.
Qed.

End DocumentEvents.

(** * Runs on concrete documents *)

(** The end-to-end scenario: an English-text slice, a math slice and a
    plain-text slice of two words take positions 0 to 3 of document 1. *)
Example end_to_end :
  indexer_index_json Scenario.fresh Scenario.envelope Scenario.lexer
    initial_state =
  Ok tt
    {| prev_docID := 1; cur_position := 0; doc_json := Scenario.envelope;
       trace :=
         [blob_index_write_call blob_index_url 1 "http://x" 8;
          term_index_doc_begin_call;
          term_index_doc_add_call "the ";
          keyval_db_put_call (mk_from 1 0) (mk_to 0 4) false;
          term_index_doc_add_call "math_exp";
          math_index_add_tex_call 1 1 (Subpaths ["x^2"%string]) 0;
          subpaths_release_call (Subpaths ["x^2"%string]);
          keyval_db_put_call (mk_from 1 1) (mk_to 4 16) false;
          term_index_doc_add_call "is";
          keyval_db_put_call (mk_from 1 2) (mk_to 21 2) false;
          term_index_doc_add_call "positive";
          keyval_db_put_call (mk_from 1 3) (mk_to 24 8) false;
          blob_index_write_call blob_index_txt 1
            "gz:The <math>x^2</math> is positive" 35;
          term_index_doc_end_call 1;
          term_index_maintain_call false];
       console := [] |}.
Proof. vm_compute. reflexivity. Qed.

(** A term index that answers 7 for the first document stops the run. *)
Example wrong_docID_is_fatal :
  exists st,
    indexer_index_json (Scenario.stores 7 false) Scenario.envelope
      Scenario.lexer initial_state =
    Fatal (assert_failed "docID == prev_docID + 1") st /\
    prev_docID st = 0 /\ doc_end_rets (trace st) = [7].
Proof. eexists. vm_compute. repeat split. Qed.

(** A slice with a tag of its own stops the run in [indexer_handle_slice]. *)
Example unknown_tag_is_fatal :
  indexer_handle_slice Scenario.fresh
    (mk_slice "x" 0 (LEX_SLICE_TYPE_other 3)) initial_state =
  Fatal (assert_failed "0") initial_state.
Proof. reflexivity. Qed.

(** An envelope that fills the read buffer is turned away. *)
Example oversized_envelope :
  let E := mk_collaborators 8 Scenario.parse Scenario.strip Scenario.lower
             Scenario.segment (fun s => s) Scenario.parse_json
             (fun _ => true) (fun _ _ _ _ => 0) (fun _ _ _ => false)
             (fun _ => EmptyString) (fun _ => 1) (fun _ => false) in
  indexer_index_json E Scenario.envelope Scenario.lexer initial_state =
  Ok tt {| prev_docID := 0; cur_position := 0;
           doc_json := string_firstn 8 Scenario.envelope;
           trace := [];
           console := [to_stderr ("corpus file too large!" ++ nl)] |}.
Proof. vm_compute. reflexivity. Qed.

(** * The claims *)

(** C1.  [index_text_field] finalizes the document and checks the docID.
    When it returns, the docID [term_index_doc_end] answered is
    [prev_docID + 1] (in the arithmetic of [doc_id_t]), it is the new
    [prev_docID], and [cur_position] is back at 0; when it stops after
    [term_index_doc_end] was called, the answer was another docID, the stop
    is the failed assertion and [prev_docID] is as it was.  And finalization
    is reached: once the memory file is open and no slice carries an unknown
    tag, the slices are handled to the end, the text blob is written and
    [term_index_doc_end] is called; if its answer is [prev_docID + 1] the
    function returns with that docID as the new [prev_docID] and with
    [cur_position] at 0, and if it is anything else the run stops on the
    failed assertion with [prev_docID] untouched. *)
Theorem index_text_field_checks_docID (E : collaborators) (txt : string)
    (lex : text_lexer) (st : indexer_state) :
  match index_text_field E txt lex st with
  | Ok _ st' =>
      finalization_answer st st' = Some (wrap32 (prev_docID st + 1)) /\
      prev_docID st' = wrap32 (prev_docID st + 1) /\
      cur_position st' = 0
  | Fatal why st' =>
      prev_docID st' = prev_docID st /\
      match finalization_answer st st' with
      | Some d => d <> wrap32 (prev_docID st + 1) /\
                  why = assert_failed "docID == prev_docID + 1"
      | None => True
      end
  end /\
  (fmemopen_ok E txt = true ->
   ~ Exists unknown_tag (lex txt) ->
   exists st1 tokens,
     foreach (handle E) (lex txt) (begun st) = Ok tt st1 /\
     trace st1 = trace st ++ term_index_doc_begin_call :: tokens /\
     let d := term_index_doc_end E (trace st1 ++ [text_blob E txt st]) in
     exists st',
       new_events st st' =
         term_index_doc_begin_call :: tokens ++
         [text_blob E txt st; term_index_doc_end_call d] /\
       finalization_answer st st' = Some d /\
       (d = wrap32 (prev_docID st + 1) ->
        index_text_field E txt lex st = Ok tt st' /\
        prev_docID st' = d /\ cur_position st' = 0) /\
       (d <> wrap32 (prev_docID st + 1) ->
        index_text_field E txt lex st =
          Fatal (assert_failed "docID == prev_docID + 1") st' /\
        prev_docID st' = prev_docID st)).
Proof.
  split.
  - destruct (fmemopen_ok E txt) eqn:Hopen.
    + pose proof (index_text_field_outcome E txt lex st Hopen) as Hout.
      destruct Hout
        as [st1 evs Hph | st1 evs d Hph Hd Hne | st1 evs d Hph Hd Heq];
        apply token_phase_begun in Hph as (T & D & _ & Hends & _).
      * split; [exact D|].
        unfold finalization_answer. rewrite (new_events_app _ _ _ T).
        destruct (rev (term_index_doc_begin_call :: evs)) as [|e l] eqn:Hrev;
          [exact I|].
        destruct e; try exact I.
        apply (f_equal (@rev _)) in Hrev. rewrite rev_involutive in Hrev.
        apply (f_equal doc_end_rets) in Hrev. simpl in Hrev.
        rewrite Hends, doc_end_rets_app in Hrev. simpl in Hrev.
        destruct (doc_end_rets (rev l)); discriminate.
      * split; [exact D|].
        unfold finalization_answer, ended.
        rewrite (new_events_app _ _
                   (term_index_doc_begin_call :: evs ++
                      [text_blob E txt st1; term_index_doc_end_call d])).
        -- cbn [rev]. rewrite rev_app_distr. cbn. auto.
        -- unfold after. cbn [trace]. rewrite T, <- app_assoc. reflexivity.
      * unfold finalization_answer, finalized, ended.
        cbn [prev_docID cur_position].
        rewrite (new_events_app _ _
                   (term_index_doc_begin_call :: evs ++
                      [text_blob E txt st1; term_index_doc_end_call d])).
        -- cbn [rev]. rewrite rev_app_distr. cbn. rewrite Heq. auto.
        -- unfold after. cbn [trace]. rewrite T, <- app_assoc. reflexivity.
    + unfold index_text_field. rewrite Hopen. cbn [negb].
      unfold bind, print, abort. cbn [prev_docID]. split; [reflexivity|].
      unfold finalization_answer, new_events. cbn [trace].
      rewrite skipn_all. exact I.
  - intros Hopen Hknown.
    destruct (foreach_handle_returns E (lex txt) (begun st) Hknown)
      as [st1 Hrun].
    destruct (foreach_handle_phase E (lex txt) (begun st))
      as (tokens & Hph & _).
    rewrite Hrun in Hph. cbn [result_state] in Hph.
    apply token_phase_begun in Hph as (T & D & _).
    exists st1, tokens. split; [exact Hrun|]. split; [exact T|].
    cbv zeta. rewrite (index_text_field_opened E txt lex st Hopen), Hrun.
    cbv zeta.
    assert (Hblob : text_blob E txt st1 = text_blob E txt st)
      by (unfold text_blob; now rewrite D).
    rewrite Hblob, D.
    set (d := term_index_doc_end E (trace st1 ++ [text_blob E txt st])).
    assert (Hnew : forall st',
               trace st' = trace (ended E txt st1 d) ->
               new_events st st' =
                 term_index_doc_begin_call :: tokens ++
                 [text_blob E txt st; term_index_doc_end_call d] /\
               finalization_answer st st' = Some d).
    { intros st' Htr.
      assert (Hev : new_events st st' =
                      term_index_doc_begin_call :: tokens ++
                      [text_blob E txt st; term_index_doc_end_call d]).
      { apply new_events_app. rewrite Htr. unfold ended, after. cbn [trace].
        rewrite Hblob, T. same_list. }
      split; [exact Hev|].
      unfold finalization_answer. rewrite Hev.
      cbn [rev]. rewrite rev_app_distr. reflexivity. }
    destruct (Z.eqb_spec d (wrap32 (prev_docID st + 1))) as [Heq|Hne].
    + exists (finalized (ended E txt st1 d) d).
      destruct (Hnew (finalized (ended E txt st1 d) d) eq_refl) as [H1 H2].
      split; [exact H1|]. split; [exact H2|].
      split; [intros _; repeat split | intros Hne; contradiction].
    + exists (ended E txt st1 d).
      destruct (Hnew (ended E txt st1 d) eq_refl) as [H1 H2].
      split; [exact H1|]. split; [exact H2|].
      split; [intros Heq; contradiction | intros _; split; [reflexivity|]].
      unfold ended, after. cbn [prev_docID]. exact D.
Qed.

(** Witness of C1: on the text of the end-to-end scenario a term index that
    answers 1 lets the first document through, and one that answers 7 stops
    the run on the assertion. *)
Lemma index_text_field_checks_docID_witness :
  (exists st',
     index_text_field Scenario.fresh Scenario.text Scenario.lexer
       initial_state = Ok tt st' /\
     prev_docID st' = 1 /\ cur_position st' = 0 /\
     finalization_answer initial_state st' = Some 1) /\
  (exists st',
     index_text_field (Scenario.stores 7 false) Scenario.text Scenario.lexer
       initial_state = Fatal (assert_failed "docID == prev_docID + 1") st' /\
     prev_docID st' = 0 /\
     finalization_answer initial_state st' = Some 7).
Proof.
  assert (Hknown : ~ Exists unknown_tag (Scenario.lexer Scenario.text)).
  { intros H. apply Exists_exists in H as (sl & Hin & tag & Htag).
    vm_compute in Hin.
    destruct Hin as [<- | [<- | [<- | []]]]; discriminate Htag. }
  split.
  - destruct (index_text_field_checks_docID Scenario.fresh Scenario.text
                Scenario.lexer initial_state) as [_ H].
    destruct (H eq_refl Hknown)
      as (st1 & tokens & Hrun & _ & st' & _ & Hans & Hmatch & _).
    vm_compute in Hrun. injection Hrun as <-.
    vm_compute in Hmatch. destruct (Hmatch eq_refl) as (Hok & Hp & Hc).
    exists st'. split; [vm_compute; exact Hok|].
    split; [exact Hp|]. split; [exact Hc|].
    rewrite Hans. vm_compute. reflexivity.
  - destruct (index_text_field_checks_docID (Scenario.stores 7 false)
                Scenario.text Scenario.lexer initial_state) as [_ H].
    destruct (H eq_refl Hknown)
      as (st1 & tokens & Hrun & _ & st' & _ & Hans & _ & Hmismatch).
    vm_compute in Hrun. injection Hrun as <-.
    vm_compute in Hmismatch.
    destruct Hmismatch as (Hfatal & Hp); [discriminate|].
    exists st'. split; [vm_compute; exact Hfatal|].
    split; [exact Hp|].
    rewrite Hans. vm_compute. reflexivity.
Defined.

Lemma entries_and_refusals (evs : list event) :
  (length (offset_entries evs) + length (refused_puts evs))%nat =
  length (offset_puts evs).
Proof.
  induction evs as [|e evs IH]; [reflexivity|].
  destruct e; simpl; auto. destruct err; simpl; lia.
Qed.

(** C2, counterexample.  With an offset store that refuses the write, one
    English-text slice consumes position 0 and leaves no offset entry. *)
Lemma offset_coverage_fails_when_put_fails :
  ~ offset_coverage (Scenario.stores 1 true)
      [mk_slice "The " 0 LEX_SLICE_TYPE_ENG_TEXT] initial_state.
Proof.
  intros H. specialize (H _ eq_refl). vm_compute in H. discriminate H.
Qed.

(** C2, as amended.  Each token path ([index_term], [index_tex]) attempts
    exactly one offset write, keyed by the docID-to-be and the position the
    counter holds before it is incremented, and then increments the counter.
    So over the slices of a document the write attempts carry the
    positions consumed, one each and in order; the entries created are those
    attempts less the writes the offset store refused. *)
Theorem one_offset_write_per_position (E : collaborators) :
  (forall term offset n_bytes st, exists st' err,
      index_term E term offset n_bytes st = Ok tt st' /\
      offset_puts (new_events st st') =
        [(offset_key st, offset_value offset n_bytes, err)] /\
      cur_position st' = wrap32 (cur_position st + 1)) /\
  (forall tex offset n_bytes st, exists st' err,
      index_tex E tex offset n_bytes st = Ok tt st' /\
      offset_puts (new_events st st') =
        [(offset_key st, offset_value offset n_bytes, err)] /\
      cur_position st' = wrap32 (cur_position st + 1)) /\
  (forall slices st,
      let st' := result_state (foreach (handle E) slices st) in
      let evs := new_events st st' in
      let consumed := length (offset_puts evs) in
      cur_position st' = advance (cur_position st) consumed /\
      put_positions evs = pos_seq (cur_position st) consumed /\
      Forall (fun p => from_docID (fst (fst p)) = wrap32 (prev_docID st + 1))
        (offset_puts evs) /\
      (length (offset_entries evs) + length (refused_puts evs))%nat = consumed).
Proof.
  split; [|split].
  - intros term offset n_bytes st. rewrite index_term_run.
    do 2 eexists. split; [reflexivity|]. rewrite new_events_after.
    split; reflexivity.
  - intros tex offset n_bytes st. rewrite index_tex_run.
    destruct (code (tex_parse E tex));
      do 2 eexists; (split; [reflexivity|]); rewrite new_events_after;
      split; reflexivity.
  - intros slices st.
    destruct (foreach_handle_phase E slices st) as (evs & Hph & _).
    cbv zeta. rewrite (new_events_app _ _ _ (tp_trace _ _ _ Hph)).
    split; [apply (tp_cur _ _ _ Hph)|].
    split; [apply (tp_positions _ _ _ Hph)|].
    split; [|apply entries_and_refusals].
    pose proof (tp_keys _ _ _ Hph) as K. unfold predicted_docID in K.
    clear Hph. induction evs as [|e evs IH]; [constructor|].
    inversion K; subst. destruct e; simpl; auto.
Qed.

Lemma one_token_run (E : collaborators) (sl : lex_slice) (st : indexer_state) :
  one_token E sl ->
  exists sl' term value err out,
    indexer_handle_slice E sl st =
    Ok sl' (after st [term_index_doc_add_call term;
                      keyval_db_put_call (offset_key st) value err]
              out (wrap32 (cur_position st + 1))).
Proof.
  intros [Hty | [Hty Hone]]; unfold indexer_handle_slice; rewrite Hty.
  - unfold bind. rewrite index_term_run. unfold ret.
    do 5 eexists. reflexivity.
  - destruct (text_segment E (eng_to_lower_case E (mb_str sl)))
      as [|seg [|seg' li]]; try discriminate Hone.
    unfold bind. cbn [foreach]. unfold bind, _index_term.
    rewrite index_term_run. unfold ret.
    do 5 eexists. reflexivity.
Qed.

(** C3.  A math slice first adds the sentinel term [math_exp] to the term
    index, then hands the body stripped of its tag to the TeX path, and
    consumes one position in all.  Hence a math slice between two one-token
    slices in a document consumes positions 0, 1 and 2, and the sentinel is
    the term at position 1, the position of the math slice. *)
Theorem math_slice_keeps_positions_in_step (E : collaborators) (m : lex_slice) :
  slice_type m = LEX_SLICE_TYPE_MATH ->
  let tex := strip_math_tag E (mb_str m) in
  let value := offset_value (slice_offset m) (strlen (mb_str m)) in
  (forall st, exists st1 rest,
      indexer_handle_slice E m st =
        Ok (mk_slice tex (slice_offset m) LEX_SLICE_TYPE_MATH) st1 /\
      new_events st st1 = term_index_doc_add_call sentinel :: rest /\
      doc_terms rest = [] /\
      math_adds rest =
        match code (tex_parse E tex) with
        | PARSER_RETCODE_SUCC =>
            [(wrap32 (prev_docID st + 1), cur_position st,
              subpaths (tex_parse E tex))]
        | PARSER_RETCODE_ERR => []
        end /\
      map fst (offset_puts rest) = [(offset_key st, value)] /\
      cur_position st1 = wrap32 (cur_position st + 1)) /\
  (forall a b st,
      one_token E a -> one_token E b -> cur_position st = 0 ->
      exists st3 term_a term_b,
        foreach (handle E) [a; m; b] st = Ok tt st3 /\
        cur_position st3 = 3 /\
        put_positions (new_events st st3) = [0; 1; 2] /\
        doc_terms (new_events st st3) = [term_a; sentinel; term_b] /\
        nth_error (map fst (offset_puts (new_events st st3))) 1 =
          Some (mk_from (wrap32 (prev_docID st + 1)) 1, value) /\
        math_adds (new_events st st3) =
          match code (tex_parse E tex) with
          | PARSER_RETCODE_SUCC =>
              [(wrap32 (prev_docID st + 1), 1, subpaths (tex_parse E tex))]
          | PARSER_RETCODE_ERR => []
          end).
Proof.
  intros Hm tex value. split.
  - intros st. destruct (handle_math_slice E m st Hm) as [out Hrun].
    rewrite Hrun. do 2 eexists. split; [reflexivity|].
    rewrite new_events_after. unfold math_slice_events. cbn [app].
    split; [reflexivity|].
    fold tex. destruct (code (tex_parse E tex)); repeat split; reflexivity.
  - intros a b st Ha Hb Hpos.
    rewrite foreach_handle_cons.
    destruct (one_token_run E a st Ha) as (a' & ta & va & ea & oa & Hra).
    rewrite Hra. set (st1 := after st _ oa _).
    rewrite foreach_handle_cons.
    destruct (handle_math_slice E m st1 Hm) as [om Hrm].
    rewrite Hrm. set (st2 := after st1 _ om _).
    rewrite foreach_handle_cons.
    destruct (one_token_run E b st2 Hb) as (b' & tb & vb & eb & ob & Hrb).
    rewrite Hrb. cbn [foreach]. unfold ret.
    exists (after st2 [term_index_doc_add_call tb;
                       keyval_db_put_call (offset_key st2) vb eb]
              ob (wrap32 (cur_position st2 + 1))), ta, tb.
    split; [reflexivity|].
    unfold st2, st1. rewrite !after_after, new_events_after.
    unfold math_slice_events, offset_key, after.
    cbn [prev_docID cur_position trace]. rewrite Hpos. fold tex.
    change (wrap32 (wrap32 (wrap32 (0 + 1) + 1) + 1)) with 3.
    change (wrap32 (wrap32 (0 + 1) + 1)) with 2.
    change (wrap32 (0 + 1)) with 1.
    split; [reflexivity|].
    destruct (code (tex_parse E tex)); repeat split; reflexivity.
Qed.

(** Witness of C3: the slices of "The <math>x^2</math> is", from the start
    of a document. *)
Lemma math_slice_keeps_positions_in_step_witness :
  exists st3,
    foreach (handle Scenario.fresh)
      [mk_slice "The " 0 LEX_SLICE_TYPE_ENG_TEXT;
       mk_slice "<math>x^2</math>" 4 LEX_SLICE_TYPE_MATH;
       mk_slice " is" 20 LEX_SLICE_TYPE_TEXT] initial_state = Ok tt st3 /\
    cur_position st3 = 3 /\
    nth_error (doc_terms (new_events initial_state st3)) 1 = Some sentinel.
Proof.
  destruct (math_slice_keeps_positions_in_step Scenario.fresh
              (mk_slice "<math>x^2</math>" 4 LEX_SLICE_TYPE_MATH) eq_refl)
    as [_ H].
  destruct (H (mk_slice "The " 0 LEX_SLICE_TYPE_ENG_TEXT)
              (mk_slice " is" 20 LEX_SLICE_TYPE_TEXT) initial_state)
    as (st3 & ta & tb & Hrun & Hpos & _ & Hterms & _).
  - left. reflexivity.
  - right. split; reflexivity.
  - reflexivity.
  - exists st3. split; [exact Hrun|]. split; [exact Hpos|].
    rewrite Hterms. reflexivity.
Defined.

(** C4.  Whatever the TeX parser reports, [index_tex] returns, records the
    offset entry for (docID-to-be, position) and increments the position.
    When the parser reports failure it prints the input and the parser's
    message, and calls neither [math_index_add_tex] nor anything else before
    the offset write; the offset write and the increment are those of the
    successful case. *)
Theorem index_tex_failure_still_takes_position (E : collaborators)
    (tex : string) (offset n_bytes : Z) (st : indexer_state) :
  exists st' parsed err out,
    index_tex E tex offset n_bytes st = Ok tt st' /\
    new_events st st' =
      parsed ++ [keyval_db_put_call (offset_key st)
                   (offset_value offset n_bytes) err] /\
    cur_position st' = wrap32 (cur_position st + 1) /\
    prev_docID st' = prev_docID st /\
    match code (tex_parse E tex) with
    | PARSER_RETCODE_SUCC =>
        math_adds parsed =
          [(wrap32 (prev_docID st + 1), cur_position st,
            subpaths (tex_parse E tex))] /\
        console st' = console st ++ out
    | PARSER_RETCODE_ERR =>
        parsed = [] /\
        math_adds (new_events st st') = [] /\
        console st' =
          console st ++
          to_stdout ("parsing TeX (`" ++ tex ++ "') error: "
                       ++ msg (tex_parse E tex) ++ nl) :: out
    end.
Proof.
  rewrite index_tex_run.
  destruct (code (tex_parse E tex)) eqn:Hcode.
  - do 4 eexists. split; [reflexivity|]. rewrite new_events_after.
    split; [reflexivity|]. split; [reflexivity|]. split; [reflexivity|].
    split; reflexivity.
  - do 4 eexists. split; [reflexivity|]. rewrite new_events_after.
    split; [reflexivity|]. split; [reflexivity|]. split; [reflexivity|].
    split; [reflexivity|]. split; reflexivity.
Qed.

Lemma string_firstn_length (n : nat) (s : string) :
  String.length (string_firstn n s) = Nat.min n (String.length s).
Proof.
  revert s. induction n as [|n IH]; intros [|c s]; simpl; auto.
Qed.


Lemma rejected_outcome (E : collaborators) (fh : string) (lex : text_lexer)
    (st : indexer_state) (r : result unit) :
  json_outcome E fh lex st r ->
  too_large E fh st = true \/ url_field E fh st = None \/
    txt_field E fh st = None ->
  exists out, r = Ok tt (after (loaded E fh st) [] out (cur_position st)).
Proof.
  intros Hout Hrej.
  destruct Hout as [out _ | url txt out why st1 Hl Hu Ht _ _
                   | url txt out Hl Hu Ht _
                   | url txt out st1 mevs mout Hl Hu Ht _ _ _].
  - exists out. reflexivity.
  - destruct Hrej as [H | [H | H]]; congruence.
  - destruct Hrej as [H | [H | H]]; congruence.
  - destruct Hrej as [H | [H | H]]; congruence.
Qed.

(** C5.  An envelope from which no [url] can be extracted is not always
    turned away.  [fread] puts no NUL behind the bytes it reads and the
    static buffer is not cleared between calls, so [get_json_val] is handed
    the new bytes followed by what the envelope before left behind them.
    Take the end-to-end envelope followed by an empty corpus file.  The
    empty file holds no [url]: parsing its bytes fails, and read first it is
    turned away without a call on a store.  Read second, the buffer still
    holds the envelope before it, and that document is indexed again: four
    blob writes, and [term_index_doc_end] called twice, for docIDs 1
    and 2. *)
Theorem empty_file_indexes_the_stale_document :
  let E := Scenario.fresh in
  let empty := EmptyString in
  (forall st, exists st',
      get_json_val E empty ["url"%string] st = Ok None st') /\
  (exists st',
      indexer_index_json E empty Scenario.lexer initial_state = Ok tt st' /\
      trace st' = [] /\ prev_docID st' = 0) /\
  (exists st',
      index_corpus E [(Scenario.envelope, Scenario.lexer);
                      (empty, Scenario.lexer)] initial_state = Ok tt st' /\
      blob_writes (trace st') =
        [(blob_index_url, 1, "http://x"%string);
         (blob_index_txt, 1, codec_compress E Scenario.text);
         (blob_index_url, 2, "http://x"%string);
         (blob_index_txt, 2, codec_compress E Scenario.text)] /\
      doc_end_rets (trace st') = [1; 2] /\
      length (offset_puts (trace st')) = 8%nat /\
      prev_docID st' = 2).
Proof.
  cbv zeta. split; [|split].
  - intros st.
    destruct (get_json_val_run Scenario.fresh EmptyString ["url"%string] st)
      as [out Hrun].
    rewrite Hrun. eexists. reflexivity.
  - eexists. vm_compute. repeat split.
  - eexists. vm_compute. repeat split.
Qed.

Lemma maintenance_events_plain (d : doc_id_t) (evs : list event) :
  forallb maintenance_event evs = true ->
  Forall (keyed_by d) evs /\ blob_writes evs = [] /\ doc_end_rets evs = [].
Proof.
  induction evs as [|e evs IH]; simpl; [auto|].
  intros H. apply andb_prop in H as [He Hevs].
  destruct (IH Hevs) as (K & B & D).
  destruct e; simpl in *; try discriminate;
    (split; [constructor; [exact I | exact K] | auto]).
Qed.

(** The calls of one [indexer_index_json], by outcome. *)
Lemma json_outcome_events (E : collaborators) (fh : string)
    (lex : text_lexer) (st : indexer_state) (r : result unit) :
  json_outcome E fh lex st r ->
  let d := wrap32 (prev_docID st + 1) in
  exists evs,
    trace (result_state r) = trace st ++ evs /\
    Forall (keyed_by d) evs /\
    match r with
    | Ok _ st' =>
        doc_json st' = doc_json (loaded E fh st) /\
        ((evs = [] /\ prev_docID st' = prev_docID st /\
          cur_position st' = cur_position st /\
          (too_large E fh st = true \/ url_field E fh st = None \/
           txt_field E fh st = None)) \/
         (exists url txt,
             url_field E fh st = Some url /\ txt_field E fh st = Some txt /\
             blob_writes evs =
               [(blob_index_url, d, url);
                (blob_index_txt, d, codec_compress E txt)] /\
             doc_end_rets evs = [d] /\
             prev_docID st' = d /\ cur_position st' = 0))
    | Fatal _ st' =>
        prev_docID st' = prev_docID st /\
        (doc_end_rets evs = [] \/
         exists d', doc_end_rets evs = [d'] /\ d' <> d)
    end.
Proof.
  intros Hout d.
  destruct Hout as [out Hrej | url txt out why st1 Hl Hu Ht _ Htf
                   | url txt out Hl Hu Ht _
                   | url txt out st1 mevs mout Hl Hu Ht _ Htf Hm].
  - exists []. cbn. rewrite !app_nil_r.
    split; [reflexivity|]. split; [constructor|].
    split; [reflexivity|]. left. auto.
  - inversion Htf as [st2 evs Hph | st2 evs d' Hph Hd Hne | ];
      subst why st1;
      apply token_phase_begun in Hph as (T & D & _ & Hends & Hblobs & K);
      unfold loaded in *; cbn [prev_docID after trace] in *.
    + exists (url_blob url st :: term_index_doc_begin_call :: evs).
      cbn [result_state]. split; [rewrite T; same_list|].
      split; [repeat constructor; auto|].
      split; [exact D|]. left. exact Hends.
    + exists (url_blob url st :: term_index_doc_begin_call :: evs ++
                [text_blob E txt st2; term_index_doc_end_call d']).
      cbn [result_state ended after trace prev_docID].
      split; [rewrite T; same_list|].
      split.
      { constructor; [reflexivity|]. constructor; [exact I|].
        apply Forall_app. split; [exact K|].
        repeat constructor. cbn. now rewrite D. }
      split; [exact D|]. right. exists d'.
      split; [|exact Hne]. cbn. rewrite doc_end_rets_app, Hends. reflexivity.
  - exists [url_blob url st]. cbn. split; [reflexivity|].
    split; [repeat constructor|]. auto.
  - inversion Htf as [ | | st2 evs d' Hph Hd Heq]. subst st1. clear Hd.
    apply token_phase_begun in Hph as (T & D & J & Hends & Hblobs & K).
    unfold loaded in *; cbn [prev_docID after trace] in *.
    destruct (maintenance_events_plain d mevs Hm) as (Km & Bm & Dm).
    exists ((url_blob url st :: term_index_doc_begin_call :: evs ++
               [text_blob E txt st2; term_index_doc_end_call d'])
            ++ mevs).
    cbn [result_state finalized ended after trace prev_docID cur_position].
    split; [rewrite T; same_list|].
    split.
    { apply Forall_app. split; [|exact Km].
      constructor; [reflexivity|]. constructor; [exact I|].
      apply Forall_app. split; [exact K|].
      repeat constructor. cbn. now rewrite D. }
    split; [exact J|].
    right. exists url, txt. split; [exact Hu|]. split; [exact Ht|].
    split.
    { rewrite blob_writes_app, Bm, app_nil_r. cbn.
      rewrite blob_writes_app, Hblobs. cbn. unfold d. now rewrite D. }
    split.
    { rewrite doc_end_rets_app, Dm, app_nil_r. cbn.
      rewrite doc_end_rets_app, Hends. rewrite Heq. reflexivity. }
    rewrite Heq. auto.
Qed.

(** C6.  Every store write of one [indexer_index_json] is filed under the
    docID-to-be, [prev_docID + 1]: the offset writes and the math-index adds
    as much as the two blob writes; a run that returns made either no call
    or the two blob writes and a [term_index_doc_end] that returned that
    docID, which is then the new [prev_docID].  An accepted envelope (one
    that does not fill the buffer, with a string under [url] and one under
    [text]) does get its writes.  The first call of the run is the write of
    the URL blob, the [url] string as it is, under the docID-to-be.  When the
    memory file opens and no slice carries an unknown tag, the calls that
    follow are [term_index_doc_begin], the calls of the tokens, the write of
    the text blob, the compressed [text] string under the same docID, and
    [term_index_doc_end]; if that returns the docID-to-be the run returns
    with it as the new [prev_docID], and otherwise it stops on the failed
    assertion with [prev_docID] as it was. *)
Theorem stores_agree_on_docID (E : collaborators) (fh : string)
    (lex : text_lexer) (st : indexer_state) :
  let d := wrap32 (prev_docID st + 1) in
  let r := indexer_index_json E fh lex st in
  (exists evs,
     trace (result_state r) = trace st ++ evs /\
     Forall (keyed_by d) evs /\
     match r with
     | Ok _ st' =>
         (evs = [] /\ prev_docID st' = prev_docID st) \/
         (exists url txt,
             blob_writes evs =
               [(blob_index_url, d, url);
                (blob_index_txt, d, codec_compress E txt)] /\
             doc_end_rets evs = [d] /\
             prev_docID st' = d)
     | Fatal _ _ => True
     end) /\
  (forall url txt,
     buffer_terminated E st ->
     too_large E fh st = false ->
     url_field E fh st = Some url -> txt_field E fh st = Some txt ->
     let url_write := blob_index_write_call blob_index_url d url (strlen url) in
     let txt_write :=
       blob_index_write_call blob_index_txt d (codec_compress E txt)
         (strlen (codec_compress E txt)) in
     (exists rest, new_events st (result_state r) = url_write :: rest) /\
     (fmemopen_ok E txt = true ->
      ~ Exists unknown_tag (lex txt) ->
      exists tokens,
        forallb token_event tokens = true /\
        Forall (keyed_by d) tokens /\
        let document :=
          [url_write; term_index_doc_begin_call] ++ tokens ++ [txt_write] in
        let d' := term_index_doc_end E (trace st ++ document) in
        (d' = d ->
         exists st',
           r = Ok tt st' /\
           new_events st st' =
             document ++ term_index_doc_end_call d ::
             maintenance_calls
               (term_index_maintain E
                  (trace st ++ document ++ [term_index_doc_end_call d])) /\
           prev_docID st' = d /\ cur_position st' = 0) /\
        (d' <> d ->
         exists st',
           r = Fatal (assert_failed "docID == prev_docID + 1") st' /\
           new_events st st' = document ++ [term_index_doc_end_call d'] /\
           prev_docID st' = prev_docID st))).
Proof.
  intros d r. split.
  - destruct (json_outcome_events E fh lex st _
                (indexer_index_json_outcome E fh lex st))
      as (evs & T & K & H).
    exists evs. split; [exact T|]. split; [exact K|].
    unfold r. destruct (indexer_index_json E fh lex st) as [[] st'|why st'];
      [|exact I].
    destruct H
      as [_ [(H1 & H2 & _) | (url & txt & _ & _ & Hb & Hd & Hp & _)]].
    + left. auto.
    + right. exists url, txt. auto.
  - intros url txt _ Hl Hu Ht. cbv zeta.
    fold (url_blob url st). fold (text_blob E txt st).
    destruct (indexer_index_json_accepted E fh lex st url txt Hl Hu Ht)
      as [out Heq].
    unfold r. rewrite Heq. clear Heq r. unfold bind.
    set (st0 := after (loaded E fh st) [url_blob url st] out
                  (cur_position st)).
    assert (T0 : trace st0 = trace st ++ [url_blob url st]) by reflexivity.
    assert (D0 : prev_docID st0 = prev_docID st) by reflexivity.
    destruct (fmemopen_ok E txt) eqn:Hopen.
    2:{ rewrite index_text_field_unopened by assumption.
        split; [|discriminate].
        exists []. apply new_events_app. cbn [result_state after trace].
        rewrite T0. same_list. }
    rewrite index_text_field_opened by assumption.
    destruct (foreach_handle_phase E (lex txt) (begun st0))
      as (tokens & Hph & Hwhy).
    pose proof (tp_events _ _ _ Hph) as Hev.
    apply token_phase_begun in Hph as (T & D & _ & _ & _ & K).
    rewrite T0 in T. rewrite D0 in D, K. fold d in K.
    destruct (foreach (handle E) (lex txt) (begun st0)) as [[] st1|why st1].
    2:{ cbn [result_state] in *. split.
        - exists (term_index_doc_begin_call :: tokens).
          apply new_events_app. rewrite T. same_list.
        - intros _ Hknown. destruct (Hwhy _ _ eq_refl) as [_ Hex].
          contradiction. }
    cbn [result_state] in T, D. cbv zeta.
    assert (Hblob : text_blob E txt st1 = text_blob E txt st)
      by (unfold text_blob; now rewrite D).
    rewrite Hblob, D. fold d.
    assert (Htr : trace st1 ++ [text_blob E txt st] =
                  trace st ++
                  [url_blob url st; term_index_doc_begin_call] ++ tokens ++
                  [text_blob E txt st]) by (rewrite T; same_list).
    rewrite Htr.
    set (document := [url_blob url st; term_index_doc_begin_call] ++ tokens ++
                     [text_blob E txt st]) in *.
    set (d' := term_index_doc_end E (trace st ++ document)).
    destruct (Z.eqb_spec d' d) as [Hd|Hd].
    + destruct (index_maintain_calls E (finalized (ended E txt st1 d') d'))
        as [mout Hm].
      rewrite Hm. clear Hm. cbn [result_state].
      assert (Hnew : new_events st
                       (after (finalized (ended E txt st1 d') d')
                          (maintenance_calls
                             (term_index_maintain E
                                (trace (finalized (ended E txt st1 d') d'))))
                          mout
                          (cur_position (finalized (ended E txt st1 d') d')))
                     = document ++ term_index_doc_end_call d ::
                       maintenance_calls
                         (term_index_maintain E
                            (trace st ++ document ++
                             [term_index_doc_end_call d]))).
      { apply new_events_app. unfold finalized, ended, after.
        cbn [trace]. rewrite Hblob, Hd.
        replace ((trace st1 ++
                  [text_blob E txt st; term_index_doc_end_call d]))
          with (trace st ++ document ++ [term_index_doc_end_call d])
          by (unfold document; rewrite T; same_list).
        same_list. }
      split.
      * rewrite Hnew. unfold document. cbn [app]. eexists. reflexivity.
      * intros _ _. exists tokens. split; [exact Hev|]. split; [exact K|].
        split; [|intros Hne; contradiction].
        intros _. eexists. split; [reflexivity|]. split; [exact Hnew|].
        split; [exact Hd | reflexivity].
    + cbn [result_state].
      assert (Hnew : new_events st (ended E txt st1 d') =
                     document ++ [term_index_doc_end_call d']).
      { apply new_events_app. unfold ended, after. cbn [trace].
        rewrite Hblob. unfold document. rewrite T. same_list. }
      split.
      * rewrite Hnew. unfold document. cbn [app]. eexists. reflexivity.
      * intros _ _. exists tokens. split; [exact Hev|]. split; [exact K|].
        split; [intros Heq; contradiction|].
        intros _. eexists. split; [reflexivity|]. split; [exact Hnew|].
        unfold ended, after. cbn [prev_docID]. exact D.
Qed.

(** Witness of C6: the end-to-end envelope, with a term index that answers
    the docID predicted. *)
Lemma stores_agree_on_docID_witness :
  exists st' tokens,
    indexer_index_json Scenario.fresh Scenario.envelope Scenario.lexer
      initial_state = Ok tt st' /\
    new_events initial_state st' =
      [blob_index_write_call blob_index_url 1 "http://x" 8;
       term_index_doc_begin_call] ++ tokens ++
      [blob_index_write_call blob_index_txt 1
         (codec_compress Scenario.fresh Scenario.text) 35;
       term_index_doc_end_call 1;
       term_index_maintain_call false] /\
    prev_docID st' = 1 /\ cur_position st' = 0.
Proof.
  destruct (stores_agree_on_docID Scenario.fresh Scenario.envelope
              Scenario.lexer initial_state) as [_ H].
  destruct (H "http://x"%string Scenario.text) as [_ Hdoc];
    try (vm_compute; reflexivity).
  { unfold buffer_terminated. vm_compute. lia. }
  destruct Hdoc as (tokens & Hev & _ & Hmatch & _); [reflexivity| |].
  { intros Hex. apply Exists_exists in Hex as (sl & Hin & tag & Htag).
    vm_compute in Hin.
    destruct Hin as [<- | [<- | [<- | []]]]; discriminate Htag. }
  destruct Hmatch as (st' & Hrun & Hnew & Hp & Hc).
  { cbn [term_index_doc_end Scenario.fresh Scenario.stores].
    rewrite !doc_end_rets_app.
    rewrite (token_events_no_doc_end _ Hev). reflexivity. }
  exists st', tokens. split; [exact Hrun|]. split; [|split; assumption].
  rewrite Hnew. cbn [app]. rewrite <- app_assoc. reflexivity.
Defined.

Lemma pos_seq_small (p : Z) (n : nat) :
  0 <= p -> p + Z.of_nat n <= uint32_modulus ->
  pos_seq p n = map (fun i => p + Z.of_nat i) (seq 0 n).
Proof.
  revert p. induction n as [|n IH]; intros p Hp Hn; [reflexivity|].
  cbn [pos_seq seq map]. rewrite Z.add_0_r. f_equal.
  destruct n as [|n]; [reflexivity|].
  rewrite wrap32_small by lia. rewrite IH by lia.
  rewrite <- seq_shift, map_map. apply map_ext. intros i. lia.
Qed.

(** The docIDs returned over a corpus: each is the one before plus 1, in
    the arithmetic of [doc_id_t]. *)
Lemma index_corpus_docIDs (E : collaborators)
    (files : list (string * text_lexer)) (st : indexer_state) :
  exists evs,
    trace (result_state (index_corpus E files st)) = trace st ++ evs /\
    match index_corpus E files st with
    | Ok _ st' =>
        doc_end_rets evs =
          pos_seq (wrap32 (prev_docID st + 1)) (length (doc_end_rets evs)) /\
        prev_docID st' = advance (prev_docID st) (length (doc_end_rets evs))
    | Fatal _ _ => True
    end.
Proof.
  revert st. induction files as [|[fh lex] files IH]; intros st.
  - exists []. cbn. rewrite app_nil_r. auto.
  - unfold index_corpus. cbn [foreach fst snd]. unfold bind at 1 2.
    destruct (json_outcome_events E fh lex st _
                (indexer_index_json_outcome E fh lex st))
      as (evs1 & T1 & _ & H1).
    destruct (indexer_index_json E fh lex st) as [[] st1|why st1].
    + cbn [result_state] in T1. fold (index_corpus E files st1).
      destruct (IH st1) as (evs2 & T2 & H2).
      exists (evs1 ++ evs2). split; [rewrite T2, T1; same_list|].
      destruct (index_corpus E files st1) as [[] st2|]; [|exact I].
      destruct H2 as [Hids Hprev]. rewrite doc_end_rets_app.
      destruct H1
        as [_ [(Hnil & Hp & _) | (url & txt & _ & _ & _ & Hd & Hp & _)]].
      * subst evs1. cbn [doc_end_rets flat_map app].
        fold (doc_end_rets evs2). rewrite <- Hp. auto.
      * rewrite Hd. cbn [app length pos_seq advance].
        rewrite <- Hp, <- Hids, Hprev. auto.
    + cbn [result_state] in *. exists evs1. auto.
Qed.

(** When a document does get indexed: the envelope is accepted, the memory
    file opens, no slice has an unknown tag, and the term index answers the
    docID the indexer predicted. *)
Lemma document_is_indexed (E : collaborators) (fh : string) (lex : text_lexer)
    (st : indexer_state) (url txt : string) :
  too_large E fh st = false ->
  url_field E fh st = Some url -> txt_field E fh st = Some txt ->
  fmemopen_ok E txt = true ->
  ~ Exists unknown_tag (lex txt) ->
  (forall evs, doc_end_rets evs = [] ->
               term_index_doc_end E (trace st ++ evs) =
               wrap32 (prev_docID st + 1)) ->
  exists st' evs,
    indexer_index_json E fh lex st = Ok tt st' /\
    trace st' = trace st ++ evs /\
    doc_end_rets evs = [wrap32 (prev_docID st + 1)] /\
    prev_docID st' = wrap32 (prev_docID st + 1) /\
    cur_position st' = 0 /\
    doc_json st' = doc_json (loaded E fh st).
Proof.
  intros Hl Hu Ht Hopen Hknown Hend.
  pose proof (indexer_index_json_outcome E fh lex st) as Hout.
  destruct (indexer_index_json E fh lex st) as [[] st'|why st'] eqn:Hrun.
  - destruct (json_outcome_events E fh lex st _ Hout) as (evs & T & _ & J & H).
    destruct H as [(_ & _ & _ & Hrej) | (u & t & _ & _ & _ & Hd & Hp & Hc)].
    + destruct Hrej as [H | [H | H]]; congruence.
    + exists st', evs. cbn [result_state] in T. repeat split; assumption.
  - exfalso.
    inversion Hout as [ | u t out why' st1 _ Hu' Ht' _ Htf
                        | u t out _ Hu' Ht' Hopen' | ]; subst.
    + assert (t = txt) by congruence. subst t.
      inversion Htf as [st2 evs Hph Hex | st2 evs d Hph Hd Hne | ]; subst.
      * contradiction.
      * apply token_phase_begun in Hph as (T & D & _ & Hends & _).
        unfold loaded in *. cbn [prev_docID after trace] in *.
        apply Hne. rewrite T.
        replace ((((trace st ++ [url_blob u st]) ++
                     term_index_doc_begin_call :: evs) ++
                    [text_blob E txt st2]))
          with (trace st ++
                (url_blob u st :: term_index_doc_begin_call :: evs ++
                   [text_blob E txt st2])) by same_list.
        apply Hend. cbn. rewrite doc_end_rets_app, Hends. reflexivity.
    + assert (t = txt) by congruence. subst t. congruence.
Qed.

Lemma in_step_document (st : indexer_state) :
  in_step st ->
  exists st',
    indexer_index_json Scenario.fresh Scenario.envelope Scenario.lexer st =
      Ok tt st' /\
    in_step st' /\ prev_docID st' = wrap32 (prev_docID st + 1).
Proof.
  intros (Hcount & Hrange & Hpos & Hbuf).
  assert (Hload : doc_json (loaded Scenario.fresh Scenario.envelope st) =
                  Scenario.envelope)
    by (unfold loaded; cbn [doc_json]; destruct Hbuf as [-> | ->];
        vm_compute; reflexivity).
  destruct (document_is_indexed Scenario.fresh Scenario.envelope
              Scenario.lexer st "http://x" Scenario.text)
    as (st' & evs & Hrun & T & Hids & Hprev & Hcur & Hjson).
  - unfold too_large, fread. cbn [fst]. vm_compute. reflexivity.
  - unfold url_field, json_text. rewrite Hload. vm_compute. reflexivity.
  - unfold txt_field, json_text. rewrite Hload. vm_compute. reflexivity.
  - reflexivity.
  - vm_compute. intros H.
    repeat match goal with
           | H : Exists _ (_ :: _) |- _ =>
               inversion H as [? ? [tag Htag] | ? ? ?]; clear H;
               [discriminate Htag|]; subst
           | H : Exists _ [] |- _ => inversion H
           end.
  - intros evs0 Hnone. cbn [Scenario.fresh Scenario.stores term_index_doc_end].
    rewrite doc_end_rets_app, length_app, Hnone. cbn [length].
    rewrite Nat.add_0_r. exact Hcount.
  - exists st'. split; [exact Hrun|]. split; [|exact Hprev].
    split; [|split; [|split; [exact Hcur|right; congruence]]].
    2:{ rewrite Hprev. apply wrap32_small, wrap32_range. }
    rewrite T, doc_end_rets_app, length_app, Hids, Hprev. cbn [length].
    rewrite Nat2Z.inj_add. unfold wrap32 in *.
    rewrite Z.add_mod_idemp_l by discriminate.
    replace (1 + (Z.of_nat (length (doc_end_rets (trace st))) + Z.of_nat 1))
      with ((1 + Z.of_nat (length (doc_end_rets (trace st)))) + 1) by lia.
    rewrite <- Z.add_mod_idemp_l by discriminate. rewrite Hcount.
    rewrite Z.add_mod_idemp_l by discriminate. reflexivity.
Qed.

Lemma in_step_corpus (n : nat) (st : indexer_state) :
  in_step st ->
  exists st',
    index_corpus Scenario.fresh
      (repeat (Scenario.envelope, Scenario.lexer) n) st = Ok tt st' /\
    in_step st' /\ prev_docID st' = wrap32 (prev_docID st + Z.of_nat n).
Proof.
  revert st. induction n as [|n IH]; intros st Hst.
  - exists st. split; [reflexivity|]. split; [exact Hst|].
    rewrite Z.add_0_r. symmetry. apply Hst.
  - destruct (in_step_document st Hst) as (st1 & Hrun1 & Hst1 & Hprev1).
    destruct (IH st1 Hst1) as (st' & Hrun & Hst' & Hprev).
    exists st'. split; [|split; [exact Hst'|]].
    + unfold index_corpus in *. cbn [repeat foreach fst snd].
      unfold bind at 1. rewrite Hrun1. exact Hrun.
    + rewrite Hprev, Hprev1, Nat2Z.inj_succ. unfold wrap32.
      rewrite Z.add_mod_idemp_l by discriminate. f_equal. lia.
Qed.

(** The state in which the counterexample of C7 starts is one the indexer
    gets to: from a fresh start, 4294967294 documents later, the docID just
    indexed is 4294967294. *)
Lemma docID_4294967294_is_reached :
  exists st,
    index_corpus Scenario.fresh
      (repeat (Scenario.envelope, Scenario.lexer) (Z.to_nat 4294967294))
      initial_state = Ok tt st /\
    prev_docID st = prev_docID near_wrap /\
    cur_position st = cur_position near_wrap.
Proof.
  destruct (in_step_corpus (Z.to_nat 4294967294) initial_state)
    as (st & Hrun & (_ & _ & Hpos & _) & Hprev).
  - split; [reflexivity|]. split; [reflexivity|].
    split; [reflexivity|]. now left.
  - exists st. split; [exact Hrun|]. split; [|exact Hpos].
    rewrite Z2Nat.id in Hprev by discriminate. exact Hprev.
Qed.

(** C7, counterexample.  [doc_id_t] has a fixed width: two documents
    indexed after docID 4294967294 get the docIDs 4294967295 and 0, and
    both pass the check of [index_text_field].  The indexer gets there from a
    fresh start, see [docID_4294967294_is_reached]. *)
Lemma docIDs_wrap_around :
  ~ docIDs_increase_without_gaps (Scenario.stores 4294967295 false)
      [(Scenario.envelope, Scenario.lexer); (Scenario.envelope, Scenario.lexer)]
      near_wrap.
Proof.
  intros H. unfold docIDs_increase_without_gaps in H.
  set (r := index_corpus _ _ _) in H.
  assert (Hr : r = Ok tt (result_state r)) by (vm_compute; reflexivity).
  assert (Hids : doc_end_rets (new_events near_wrap (result_state r)) =
                 [4294967295; 0]) by (vm_compute; reflexivity).
  specialize (H _ Hr 0%nat 4294967295 0). rewrite Hids in H.
  specialize (H eq_refl eq_refl). discriminate H.
Qed.

(** C7, as amended.  Over a corpus that is indexed to the end, each docID
    [term_index_doc_end] returns is the one before plus 1 in the arithmetic of
    [doc_id_t], starting from [prev_docID + 1]; as long as the counter does
    not wrap around, the docIDs are [prev_docID + 1], [prev_docID + 2], ...:
    strictly increasing, without gaps. *)
Theorem docIDs_consecutive_until_wrap (E : collaborators)
    (files : list (string * text_lexer)) (st st' : indexer_state) :
  index_corpus E files st = Ok tt st' ->
  let ids := doc_end_rets (new_events st st') in
  ids = pos_seq (wrap32 (prev_docID st + 1)) (length ids) /\
  prev_docID st' = advance (prev_docID st) (length ids) /\
  (0 <= prev_docID st ->
   prev_docID st + Z.of_nat (length ids) < uint32_modulus ->
   ids = map (fun i => prev_docID st + Z.of_nat i) (seq 1 (length ids)) /\
   prev_docID st' = prev_docID st + Z.of_nat (length ids)).
Proof.
  intros Hrun ids.
  destruct (index_corpus_docIDs E files st) as (evs & T & H).
  rewrite Hrun in T, H. cbn [result_state] in T.
  assert (Hids : ids = doc_end_rets evs)
    by (unfold ids; now rewrite (new_events_app _ _ _ T)).
  rewrite Hids. destruct H as [Hseq Hprev].
  split; [exact Hseq|]. split; [exact Hprev|].
  intros Hp Hn. split.
  - rewrite Hseq at 1. destruct (length (doc_end_rets evs)) as [|k] eqn:Hk.
    + reflexivity.
    + rewrite Nat2Z.inj_succ in Hn.
      rewrite wrap32_small by lia. rewrite pos_seq_small by lia.
      rewrite <- seq_shift, map_map. apply map_ext. intros i. lia.
  - rewrite Hprev. apply advance_small; lia.
Qed.

(** Witness of C7: two documents indexed by a fresh term index get the
    docIDs 1 and 2. *)
Lemma docIDs_consecutive_until_wrap_witness :
  exists st',
    index_corpus Scenario.fresh
      [(Scenario.envelope, Scenario.lexer); (Scenario.envelope, Scenario.lexer)]
      initial_state = Ok tt st' /\
    doc_end_rets (new_events initial_state st') = [1; 2] /\
    prev_docID st' = 2.
Proof.
  set (r := index_corpus _ _ _).
  assert (Hr : r = Ok tt (result_state r)) by (vm_compute; reflexivity).
  exists (result_state r). split; [exact Hr|].
  destruct (docIDs_consecutive_until_wrap _ _ _ _ Hr) as (_ & _ & H).
  destruct H as [Hids Hprev].
  - vm_compute. discriminate.
  - vm_compute. reflexivity.
  - split; [rewrite Hids|rewrite Hprev]; vm_compute; reflexivity.
Defined.

(** C8, counterexample.  The parser fails on an expression that opens with a
    backslash; [index_tex] then prints the error and goes on to the offset
    write without a call of [subpaths_release]. *)
Lemma no_release_after_failed_parse :
  ~ subpaths_always_released Scenario.fresh
      (String (ascii_of_nat 92) "frac{") 4 19 initial_state.
Proof.
  intros (st' & Hrun & Hin).
  vm_compute in Hrun. inversion Hrun; subst st'. clear Hrun.
  vm_compute in Hin. exact Hin.
Qed.

(** C8, as amended.  When the parse succeeds, [index_tex] passes the
    subpaths to [math_index_add_tex] and releases them right after that call,
    whatever the call reports; when the parse fails there is no call of
    [subpaths_release] at all. *)
Theorem subpaths_released_after_successful_parse (E : collaborators)
    (tex : string) (offset n_bytes : Z) (st : indexer_state) :
  exists st' err,
    let put := keyval_db_put_call (offset_key st)
                 (offset_value offset n_bytes) err in
    index_tex E tex offset n_bytes st = Ok tt st' /\
    match code (tex_parse E tex) with
    | PARSER_RETCODE_SUCC =>
        let sp := subpaths (tex_parse E tex) in
        let d := wrap32 (prev_docID st + 1) in
        new_events st st' =
          [math_index_add_tex_call d (cur_position st) sp
             (math_index_add_tex E (trace st) d (cur_position st) sp);
           subpaths_release_call sp; put] /\
        subpaths_released (new_events st st') = [sp]
    | PARSER_RETCODE_ERR =>
        new_events st st' = [put] /\
        subpaths_released (new_events st st') = []
    end.
Proof.
  rewrite index_tex_run.
  destruct (code (tex_parse E tex));
    do 2 eexists; (split; [reflexivity|]); rewrite new_events_after;
    split; reflexivity.
Qed.

(** C9.  When the offset store refuses the write, [save_offset] prints a
    diagnostic and returns 1, and nothing stops: [index_term] and [index_tex]
    return all the same, the term stays added to the term index (the
    expression to the math index), and the position is incremented as it is
    after a write that went through. *)
Theorem offset_write_failure_is_recoverable (E : collaborators)
    (offset n_bytes : Z) (st : indexer_state) :
  let key := offset_key st in
  let value := offset_value offset n_bytes in
  let refused tr := keyval_db_put E tr key value = true in
  let put := keyval_db_put_call key value true in
  (refused (trace st) ->
   exists st',
     save_offset E offset n_bytes st = Ok true st' /\
     new_events st st' = [put] /\
     console st' =
       console st ++
       [to_stdout ("put error: " ++ keyval_db_last_err E (trace st') ++ nl)] /\
     prev_docID st' = prev_docID st /\ cur_position st' = cur_position st) /\
  (forall term,
      refused (trace st ++ [term_index_doc_add_call term]) ->
      exists st',
        index_term E term offset n_bytes st = Ok tt st' /\
        new_events st st' = [term_index_doc_add_call term; put] /\
        cur_position st' = wrap32 (cur_position st + 1)) /\
  (forall tex,
      let sp := subpaths (tex_parse E tex) in
      let d := wrap32 (prev_docID st + 1) in
      let add := math_index_add_tex_call d (cur_position st) sp
                   (math_index_add_tex E (trace st) d (cur_position st) sp) in
      code (tex_parse E tex) = PARSER_RETCODE_SUCC ->
      refused (trace st ++ [add; subpaths_release_call sp]) ->
      exists st',
        index_tex E tex offset n_bytes st = Ok tt st' /\
        new_events st st' = [add; subpaths_release_call sp; put] /\
        cur_position st' = wrap32 (cur_position st + 1)).
Proof.
  cbv zeta. split; [|split].
  - intros Hput. rewrite save_offset_run, Hput.
    eexists. split; [reflexivity|]. rewrite new_events_after.
    repeat split; reflexivity.
  - intros term Hput. rewrite index_term_run.
    unfold after at 2. cbn [trace]. rewrite Hput.
    eexists. split; [reflexivity|]. rewrite new_events_after.
    split; reflexivity.
  - intros tex Hcode Hput. rewrite index_tex_run, Hcode, Hput.
    eexists. split; [reflexivity|]. rewrite new_events_after.
    split; reflexivity.
Qed.

(** Witness of C9: the term "the" at offset 0, with an offset store that
    refuses every write. *)
Lemma offset_write_failure_is_recoverable_witness :
  exists st',
    index_term (Scenario.stores 1 true) "the" 0 3 initial_state = Ok tt st' /\
    doc_terms (new_events initial_state st') = ["the"%string] /\
    offset_entries (new_events initial_state st') = [] /\
    cur_position st' = 1.
Proof.
  destruct (offset_write_failure_is_recoverable (Scenario.stores 1 true)
              0 3 initial_state) as (_ & H & _).
  destruct (H "the"%string) as (st' & Hrun & Hevs & Hpos).
  - reflexivity.
  - exists st'. split; [exact Hrun|]. rewrite Hevs.
    split; [reflexivity|]. split; [reflexivity|]. exact Hpos.
Defined.

(** C10.  A plain-text slice that segments into no text segment changes
    nothing but its own string, which is lower-cased: no call on a store,
    [cur_position] and [prev_docID] as before. *)
Theorem empty_text_slice_consumes_no_position (E : collaborators)
    (slice : lex_slice) (st : indexer_state) :
  slice_type slice = LEX_SLICE_TYPE_TEXT ->
  text_segment E (eng_to_lower_case E (mb_str slice)) = [] ->
  indexer_handle_slice E slice st =
  Ok (mk_slice (eng_to_lower_case E (mb_str slice)) (slice_offset slice)
        LEX_SLICE_TYPE_TEXT) st.
Proof.
  intros Hty Hseg. unfold indexer_handle_slice. rewrite Hty, Hseg.
  reflexivity.
Qed.

(** Witness of C10: a slice of blanks. *)
Lemma empty_text_slice_consumes_no_position_witness :
  indexer_handle_slice Scenario.fresh
    (mk_slice "   " 7 LEX_SLICE_TYPE_TEXT) initial_state =
  Ok (mk_slice "   " 7 LEX_SLICE_TYPE_TEXT) initial_state.
Proof.
  apply (empty_text_slice_consumes_no_position Scenario.fresh
           (mk_slice "   " 7 LEX_SLICE_TYPE_TEXT) initial_state);
    reflexivity.
Defined.

(** * More about the indexer *)

(** ** The calls of one slice *)

Section SliceEvents.

Variable E : collaborators.

Lemma index_term_events (term : string) (offset n_bytes : Z)
    (st : indexer_state) :
  exists out,
    index_term E term offset n_bytes st =
    Ok tt (after st
             (term_events E (trace st) (wrap32 (prev_docID st + 1))
                (cur_position st) term offset n_bytes)
             out (wrap32 (cur_position st + 1))).
Proof.
  rewrite index_term_run.
  match goal with
  | |- exists out, Ok tt (after st _ ?o _) = _ => exists o
  end.
  reflexivity.
Qed.

Lemma foreach_seg_events (slice_offset : Z) (li : list text_seg)
    (st : indexer_state) :
  exists out,
    foreach (_index_term E slice_offset) li st =
    Ok tt (after st
             (seg_events E (trace st) (wrap32 (prev_docID st + 1))
                (cur_position st) slice_offset li)
             out (advance (cur_position st) (length li))).
Proof.
  revert st. induction li as [|seg li IH]; intros st.
  - exists []. cbn. now rewrite after_nil.
  - cbn [foreach seg_events length advance]. unfold bind at 1.
    unfold _index_term at 1.
    destruct (index_term_events (seg_str seg)
                (wrap32 (seg_offset seg + slice_offset)) (seg_n_bytes seg) st)
      as [out1 Hrun1].
    rewrite Hrun1.
    destruct (IH (after st
                    (term_events E (trace st) (wrap32 (prev_docID st + 1))
                       (cur_position st) (seg_str seg)
                       (wrap32 (seg_offset seg + slice_offset))
                       (seg_n_bytes seg))
                    out1 (wrap32 (cur_position st + 1))))
      as [out2 Hrun2].
    rewrite Hrun2, after_after. exists (out1 ++ out2). reflexivity.
Qed.

(** What [indexer_handle_slice] returns, for each kind of slice. *)
Lemma handle_slice_events (sl : lex_slice) (st : indexer_state) :
  match slice_type sl with
  | LEX_SLICE_TYPE_other _ =>
      indexer_handle_slice E sl st = Fatal (assert_failed "0") st
  | _ =>
      exists sl' out,
        indexer_handle_slice E sl st =
        Ok sl' (after st (slice_events E st sl) out
                  (advance (cur_position st) (slice_tokens E sl)))
  end.
Proof.
  destruct (slice_type sl) eqn:Hty.
  - destruct (handle_math_slice E sl st Hty) as [out Hrun].
    unfold slice_events, slice_tokens. rewrite Hty. cbn [advance].
    do 2 eexists. exact Hrun.
  - unfold indexer_handle_slice, slice_events, slice_tokens. rewrite Hty.
    unfold bind.
    destruct (foreach_seg_events (slice_offset sl)
                (text_segment E (eng_to_lower_case E (mb_str sl))) st)
      as [out Hrun].
    rewrite Hrun. unfold ret. do 2 eexists. reflexivity.
  - unfold indexer_handle_slice, slice_events, slice_tokens. rewrite Hty.
    unfold bind.
    destruct (index_term_events (eng_to_lower_case E (mb_str sl))
                (slice_offset sl) (strlen (mb_str sl)) st) as [out Hrun].
    rewrite Hrun. unfold ret. cbn [advance]. do 2 eexists. reflexivity.
  - unfold indexer_handle_slice. rewrite Hty. reflexivity.
Qed.

Lemma slice_events_new (sl : lex_slice) (st : indexer_state) :
  new_events st (result_state (indexer_handle_slice E sl st)) =
  slice_events E st sl.
Proof.
  pose proof (handle_slice_events sl st) as H.
  destruct (slice_type sl) eqn:Hty;
    try (destruct H as (sl' & out & ->); cbn [result_state];
         apply new_events_after).
  rewrite H. cbn [result_state]. unfold slice_events. rewrite Hty.
  unfold new_events. apply skipn_all.
Qed.

Lemma slice_events_phase (sl : lex_slice) (st : indexer_state) :
  token_phase st (result_state (indexer_handle_slice E sl st))
    (slice_events E st sl).
Proof.
  destruct (handle_slice_phase E sl st) as (evs & Hph & _).
  rewrite <- slice_events_new.
  now rewrite (new_events_app _ _ _ (tp_trace _ _ _ Hph)).
Qed.

(** A property of the calls of a run of slices follows from the property
    for one slice, once it passes from two runs to the two in a row. *)
Lemma foreach_handle_induction (P : indexer_state -> list event -> Prop) :
  (forall st, P st []) ->
  (forall st st1 e1 e2,
      token_phase st st1 e1 -> P st e1 -> P st1 e2 -> P st (e1 ++ e2)) ->
  (forall st sl, P st (slice_events E st sl)) ->
  forall slices st,
    P st (new_events st (result_state (foreach (handle E) slices st))).
Proof.
  intros Hnil Happ Hone slices.
  induction slices as [|sl slices IH]; intros st.
  - cbn. unfold new_events. rewrite skipn_all. apply Hnil.
  - rewrite foreach_handle_cons.
    pose proof (slice_events_phase sl st) as Hph.
    pose proof (Hone st sl) as H1.
    destruct (indexer_handle_slice E sl st) as [sl' st1|why st1];
      cbn [result_state] in *.
    + destruct (foreach_handle_phase E slices st1) as (evs2 & Hph2 & _).
      pose proof (IH st1) as H2.
      rewrite (new_events_app _ _ _ (tp_trace _ _ _ Hph2)) in H2.
      rewrite (new_events_app _ _ (slice_events E st sl ++ evs2)).
      * eapply Happ; eauto.
      * rewrite (tp_trace _ _ _ Hph2), (tp_trace _ _ _ Hph).
        now rewrite app_assoc.
    + now rewrite (new_events_app _ _ _ (tp_trace _ _ _ Hph)).
Qed.

End SliceEvents.

Lemma math_adds_app (a b : list event) :
  math_adds (a ++ b) = math_adds a ++ math_adds b.
Proof. apply flat_map_app. Qed.

Lemma subpaths_released_app (a b : list event) :
  subpaths_released (a ++ b) = subpaths_released a ++ subpaths_released b.
Proof. apply flat_map_app. Qed.

Section SliceFacts.

Variable E : collaborators.

Lemma seg_events_terms (tr : list event) (d : doc_id_t) (p : position_t)
    (off : Z) (li : list text_seg) :
  doc_terms (seg_events E tr d p off li) = map seg_str li.
Proof.
  revert tr p. induction li as [|seg li IH]; intros tr p; [reflexivity|].
  cbn [seg_events map]. rewrite doc_terms_app, IH. reflexivity.
Qed.

Lemma seg_events_values (tr : list event) (d : doc_id_t) (p : position_t)
    (off : Z) (li : list text_seg) :
  offset_values (seg_events E tr d p off li) =
  map (fun seg => offset_value (wrap32 (seg_offset seg + off))
                    (seg_n_bytes seg)) li.
Proof.
  revert tr p. induction li as [|seg li IH]; intros tr p; [reflexivity|].
  cbn [seg_events map]. unfold offset_values in *.
  rewrite offset_puts_app, map_app, IH. reflexivity.
Qed.

Lemma seg_events_keys (tr : list event) (d : doc_id_t) (p : position_t)
    (off : Z) (li : list text_seg) :
  offset_keys (seg_events E tr d p off li) =
  map (mk_from d) (pos_seq p (length li)).
Proof.
  revert tr p. induction li as [|seg li IH]; intros tr p; [reflexivity|].
  cbn [seg_events length pos_seq map]. unfold offset_keys in *.
  rewrite offset_puts_app, map_app, IH. reflexivity.
Qed.

Lemma seg_events_no_math (tr : list event) (d : doc_id_t) (p : position_t)
    (off : Z) (li : list text_seg) :
  math_adds (seg_events E tr d p off li) = [] /\
  subpaths_released (seg_events E tr d p off li) = [].
Proof.
  revert tr p. induction li as [|seg li IH]; intros tr p; [split; reflexivity|].
  cbn [seg_events]. unfold math_adds, subpaths_released in *.
  rewrite !flat_map_app. destruct (IH (tr ++ term_events E tr d p (seg_str seg)
                                           (wrap32 (seg_offset seg + off))
                                           (seg_n_bytes seg))
                                      (wrap32 (p + 1))) as [-> ->].
  split; reflexivity.
Qed.

(** What a slice hands to the math index, and what it releases. *)
Lemma slice_events_math (st : indexer_state) (sl : lex_slice) :
  let r := tex_parse E (strip_math_tag E (mb_str sl)) in
  match slice_type sl, code r with
  | LEX_SLICE_TYPE_MATH, PARSER_RETCODE_SUCC =>
      math_adds (slice_events E st sl) =
        [(wrap32 (prev_docID st + 1), cur_position st, subpaths r)] /\
      subpaths_released (slice_events E st sl) = [subpaths r] /\
      doc_terms (slice_events E st sl) = [sentinel]
  | LEX_SLICE_TYPE_MATH, PARSER_RETCODE_ERR =>
      math_adds (slice_events E st sl) = [] /\
      subpaths_released (slice_events E st sl) = [] /\
      doc_terms (slice_events E st sl) = [sentinel]
  | _, _ =>
      math_adds (slice_events E st sl) = [] /\
      subpaths_released (slice_events E st sl) = []
  end.
Proof.
  cbv zeta. unfold slice_events, math_slice_events.
  destruct (slice_type sl);
    [destruct (code (tex_parse E (strip_math_tag E (mb_str sl))))| | |];
    try (repeat split; reflexivity).
  apply seg_events_no_math.
Qed.

Lemma sentinel_at_slice (st : indexer_state) (sl : lex_slice) :
  sentinel_at (cur_position st) (slice_events E st sl).
Proof.
  intros d p sp Hin.
  pose proof (slice_events_math st sl) as H. cbv zeta in H.
  destruct (slice_type sl);
    destruct (code (tex_parse E (strip_math_tag E (mb_str sl))));
    try (destruct H as [H _]; rewrite H in Hin; contradiction).
  destruct H as (Hm & _ & Ht). rewrite Hm in Hin. rewrite Ht.
  destruct Hin as [Heq | []]. inversion Heq; subst.
  exists 0%nat. repeat split. cbn. lia.
Qed.

Lemma sentinel_at_app (st st1 : indexer_state) (e1 e2 : list event) :
  token_phase st st1 e1 ->
  sentinel_at (cur_position st) e1 -> sentinel_at (cur_position st1) e2 ->
  sentinel_at (cur_position st) (e1 ++ e2).
Proof.
  intros Hph H1 H2 d p sp Hin.
  rewrite math_adds_app in Hin. rewrite doc_terms_app, length_app.
  apply in_app_or in Hin as [Hin | Hin].
  - destruct (H1 d p sp Hin) as (k & Hk & Hp & Hn).
    exists k. split; [lia|]. split; [exact Hp|].
    now rewrite nth_error_app1.
  - destruct (H2 d p sp Hin) as (k & Hk & Hp & Hn).
    exists (length (doc_terms e1) + k)%nat. split; [lia|]. split.
    + rewrite advance_add, (tp_terms _ _ _ Hph), <- (tp_cur _ _ _ Hph).
      exact Hp.
    + rewrite nth_error_app2 by lia.
      replace (length (doc_terms e1) + k - length (doc_terms e1))%nat
        with k by lia.
      exact Hn.
Qed.

End SliceFacts.

Lemma pos_seq_length (p : position_t) (n : nat) : length (pos_seq p n) = n.
Proof. revert p. induction n; intros p; simpl; auto. Qed.

Lemma slice_events_count (E : collaborators) (st : indexer_state)
    (sl : lex_slice) :
  length (offset_puts (slice_events E st sl)) = slice_tokens E sl /\
  length (doc_terms (slice_events E st sl)) = slice_tokens E sl.
Proof.
  unfold slice_events, slice_tokens, math_slice_events.
  destruct (slice_type sl); try (split; reflexivity).
  - destruct (code (tex_parse E (strip_math_tag E (mb_str sl))));
      split; reflexivity.
  - split.
    + rewrite <- (length_map (fun p => fst (fst p))).
      fold (offset_keys (seg_events E (trace st) (wrap32 (prev_docID st + 1))
                           (cur_position st) (slice_offset sl)
                           (text_segment E (eng_to_lower_case E (mb_str sl))))).
      now rewrite seg_events_keys, length_map, pos_seq_length.
    + now rewrite seg_events_terms, length_map.
Qed.

Lemma keyed_offset_keys (d : doc_id_t) (evs : list event) :
  Forall (keyed_by d) evs ->
  offset_keys evs = map (mk_from d) (put_positions evs).
Proof.
  unfold offset_keys, put_positions.
  induction 1 as [|e evs He _ IH]; [reflexivity|].
  destruct e; simpl in *; auto.
  rewrite IH. destruct from as [fd fp]. simpl in *. now subst.
Qed.

Lemma put_positions_of_keys (evs : list event) :
  put_positions evs = map from_pos (offset_keys evs).
Proof. unfold put_positions, offset_keys. now rewrite map_map. Qed.

Lemma pos_seq_NoDup (p : Z) (n : nat) :
  0 <= p -> p + Z.of_nat n <= uint32_modulus -> NoDup (pos_seq p n).
Proof.
  intros Hp Hn. rewrite pos_seq_small by assumption.
  apply NoDup_map_NoDup_ForallPairs; [|apply seq_NoDup].
  intros i j _ _ H. lia.
Qed.

(** X1.  In a document that starts at position 0 and has no more than 2^32
    tokens, every expression handed to the math index at position [p] has
    the sentinel term [math_exp] as the term of the same position in the
    term index: the two indices number the tokens of a document alike,
    whatever the parser and the stores report. *)
Theorem math_adds_sit_on_sentinels (E : collaborators)
    (slices : list lex_slice) (st : indexer_state) :
  let evs := new_events st (result_state (foreach (handle E) slices st)) in
  cur_position st = 0 ->
  Z.of_nat (length (doc_terms evs)) <= uint32_modulus ->
  forall d p sp,
    In (d, p, sp) (math_adds evs) ->
    0 <= p /\ nth_error (doc_terms evs) (Z.to_nat p) = Some sentinel.
Proof.
  intros evs Hpos Hlen d p sp Hin.
  assert (H : sentinel_at (cur_position st) evs).
  { unfold evs.
    apply (foreach_handle_induction E
             (fun st evs => sentinel_at (cur_position st) evs)).
    - intros st0 d0 p0 sp0 [].
    - intros st0 st1 e1 e2. apply sentinel_at_app.
    - intros st0 sl. apply sentinel_at_slice. }
  destruct (H d p sp Hin) as (k & Hk & Hp & Hn).
  rewrite Hpos in Hp. rewrite advance_small in Hp by lia.
  subst p. rewrite Z.add_0_l, Nat2Z.id. split; [lia|exact Hn].
Qed.

(** Witness of X1: the slices of the end-to-end document. *)
Lemma math_adds_sit_on_sentinels_witness :
  nth_error
    (doc_terms
       (new_events initial_state
          (result_state
             (foreach (handle Scenario.fresh) (Scenario.lexer Scenario.text)
                initial_state))))
    (Z.to_nat 1) = Some sentinel.
Proof.
  apply (math_adds_sit_on_sentinels Scenario.fresh
           (Scenario.lexer Scenario.text) initial_state eq_refl)
    with (d := 1) (sp := Subpaths ["x^2"%string]).
  - vm_compute. discriminate.
  - vm_compute. left. reflexivity.
Defined.

(** X2.  Over the slices of a document, the subpaths released are exactly
    the subpaths handed to the math index, one release for each add and in
    the same order: nothing is released twice and nothing indexed is kept. *)
Theorem released_subpaths_are_the_indexed_ones (E : collaborators)
    (slices : list lex_slice) (st : indexer_state) :
  let evs := new_events st (result_state (foreach (handle E) slices st)) in
  subpaths_released evs = map snd (math_adds evs).
Proof.
  cbv zeta.
  apply (foreach_handle_induction E
           (fun _ evs => subpaths_released evs = map snd (math_adds evs))).
  - reflexivity.
  - intros st0 st1 e1 e2 _ H1 H2.
    now rewrite subpaths_released_app, math_adds_app, map_app, H1, H2.
  - intros st0 sl. pose proof (slice_events_math E st0 sl) as H.
    cbv zeta in H.
    destruct (slice_type sl);
      destruct (code (tex_parse E (strip_math_tag E (mb_str sl))));
      try (destruct H as [-> ->]; reflexivity);
      destruct H as (-> & -> & _); reflexivity.
Qed.

(** X3.  A plain-text slice is lower-cased and segmented; each segment, in
    order, becomes one term with one offset write whose offset is the
    segment's offset plus the slice's offset (in 32 bits) and whose length is
    the segment's; the positions are consecutive from the current one, and
    nothing goes to the math index. *)
Theorem text_slice_indexes_its_segments (E : collaborators) (sl : lex_slice)
    (st : indexer_state) :
  slice_type sl = LEX_SLICE_TYPE_TEXT ->
  let lowered := eng_to_lower_case E (mb_str sl) in
  let li := text_segment E lowered in
  exists st',
    indexer_handle_slice E sl st =
      Ok (mk_slice lowered (slice_offset sl) LEX_SLICE_TYPE_TEXT) st' /\
    doc_terms (new_events st st') = map seg_str li /\
    offset_values (new_events st st') =
      map (fun seg => offset_value (wrap32 (seg_offset seg + slice_offset sl))
                        (seg_n_bytes seg)) li /\
    offset_keys (new_events st st') =
      map (mk_from (wrap32 (prev_docID st + 1)))
        (pos_seq (cur_position st) (length li)) /\
    math_adds (new_events st st') = [] /\
    cur_position st' = advance (cur_position st) (length li).
Proof.
  intros Hty lowered li.
  unfold indexer_handle_slice. rewrite Hty. unfold bind.
  destruct (foreach_seg_events E (slice_offset sl) li st) as [out Hrun].
  fold lowered. fold li. rewrite Hrun. unfold ret.
  eexists. split; [reflexivity|]. rewrite new_events_after.
  split; [apply seg_events_terms|].
  split; [apply seg_events_values|].
  split; [apply seg_events_keys|].
  split; [apply seg_events_no_math|reflexivity].
Qed.

(** Witness of X3: the slice " is positive" at offset 20. *)
Lemma text_slice_indexes_its_segments_witness :
  exists st',
    indexer_handle_slice Scenario.fresh
      (mk_slice " is positive" 20 LEX_SLICE_TYPE_TEXT) initial_state =
      Ok (mk_slice " is positive" 20 LEX_SLICE_TYPE_TEXT) st' /\
    doc_terms (new_events initial_state st') =
      ["is"%string; "positive"%string] /\
    offset_values (new_events initial_state st') = [mk_to 21 2; mk_to 24 8].
Proof.
  destruct (text_slice_indexes_its_segments Scenario.fresh
              (mk_slice " is positive" 20 LEX_SLICE_TYPE_TEXT)
              initial_state eq_refl)
    as (st' & Hrun & Hterms & Hvalues & _).
  exists st'. split; [exact Hrun|]. split; [exact Hterms|exact Hvalues].
Defined.

Lemma slices_consume_tokens (E : collaborators) (slices : list lex_slice) :
  forall st st',
    foreach (handle E) slices st = Ok tt st' ->
    exists evs,
      trace st' = trace st ++ evs /\
      cur_position st' =
        advance (cur_position st) (list_sum (map (slice_tokens E) slices)) /\
      length (offset_puts evs) = list_sum (map (slice_tokens E) slices) /\
      length (doc_terms evs) = list_sum (map (slice_tokens E) slices).
Proof.
  induction slices as [|sl slices IH]; intros st st' Hrun.
  - inversion Hrun; subst. exists []. cbn. now rewrite app_nil_r.
  - rewrite foreach_handle_cons in Hrun.
    pose proof (handle_slice_events E sl st) as H1.
    destruct (slice_events_count E st sl) as [Hputs Hterms].
    destruct (indexer_handle_slice E sl st) as [sl' st1|why st1];
      [|discriminate Hrun].
    assert (H : exists out,
               st1 = after st (slice_events E st sl) out
                       (advance (cur_position st) (slice_tokens E sl))).
    { destruct (slice_type sl); try discriminate H1;
        destruct H1 as (sl0 & out & Heq); inversion Heq; now exists out. }
    destruct H as [out ->].
    destruct (IH _ _ Hrun) as (evs & T & C & P & D).
    exists (slice_events E st sl ++ evs).
    change (list_sum (map (slice_tokens E) (sl :: slices)))
      with (slice_tokens E sl + list_sum (map (slice_tokens E) slices))%nat.
    cbn [trace cur_position after] in T, C.
    rewrite offset_puts_app, doc_terms_app, !length_app, advance_add.
    rewrite T, C, P, D, Hputs, Hterms, <- app_assoc. auto.
Qed.

(** X4.  The positions a run of slices consumes are counted by the slices
    alone: one for a math slice, one for an English-text slice, one for each
    segment of a plain-text slice.  As many terms are added and as many offset
    writes attempted, whether or not the parser or the offset store fail. *)
Theorem slices_consume_their_tokens (E : collaborators)
    (slices : list lex_slice) (st st' : indexer_state) :
  foreach (handle E) slices st = Ok tt st' ->
  let n := list_sum (map (slice_tokens E) slices) in
  cur_position st' = advance (cur_position st) n /\
  length (doc_terms (new_events st st')) = n /\
  length (offset_puts (new_events st st')) = n.
Proof.
  intros Hrun n.
  destruct (slices_consume_tokens E slices st st' Hrun) as (evs & T & C & P & D).
  rewrite (new_events_app _ _ _ T). auto.
Qed.

(** Witness of X4: the three slices of the end-to-end document stand for four
    tokens, also with an offset store that refuses every write. *)
Lemma slices_consume_their_tokens_witness :
  cur_position
    (result_state
       (foreach (handle (Scenario.stores 1 true))
          (Scenario.lexer Scenario.text) initial_state)) = 4.
Proof.
  set (r := foreach _ _ _).
  assert (Hr : r = Ok tt (result_state r)) by (vm_compute; reflexivity).
  destruct (slices_consume_their_tokens _ _ _ _ Hr) as (Hpos & _).
  rewrite Hpos. vm_compute. reflexivity.
Defined.

(** X5.  Within a document no offset key is written twice: as long as the
    position counter does not wrap around, the offset writes of a run of
    slices go to pairwise different (docID, position) keys. *)
Theorem offset_keys_distinct_within_document (E : collaborators)
    (slices : list lex_slice) (st : indexer_state) :
  let evs := new_events st (result_state (foreach (handle E) slices st)) in
  0 <= cur_position st ->
  cur_position st + Z.of_nat (length (offset_puts evs)) <= uint32_modulus ->
  NoDup (offset_keys evs).
Proof.
  intros evs Hp Hn.
  destruct (foreach_handle_phase E slices st) as (evs0 & Hph & _).
  assert (Hevs : evs = evs0)
    by (unfold evs; apply new_events_app, (tp_trace _ _ _ Hph)).
  rewrite Hevs in *.
  apply (NoDup_map_inv from_pos).
  rewrite <- put_positions_of_keys, (tp_positions _ _ _ Hph).
  now apply pos_seq_NoDup.
Qed.

(** Witness of X5: the offset keys of the end-to-end document. *)
Lemma offset_keys_distinct_within_document_witness :
  NoDup
    (offset_keys
       (new_events initial_state
          (result_state
             (foreach (handle Scenario.fresh) (Scenario.lexer Scenario.text)
                initial_state)))).
Proof.
  apply (offset_keys_distinct_within_document Scenario.fresh
           (Scenario.lexer Scenario.text) initial_state).
  - vm_compute. discriminate.
  - vm_compute. discriminate.
Defined.

(** X6.  A document that is indexed makes its calls in one order: the URL
    blob write, [term_index_doc_begin], the calls of the tokens, the text blob
    write, [term_index_doc_end], and then [term_index_maintain], followed by
    a sleep of two seconds and a flush of the offset store exactly when
    maintenance ran.  An [indexer_index_json] that returns made either
    these calls or none.  The [url] and the [text] written are the strings
    found in the text of the read buffer, which has never been filled. *)
Theorem indexed_document_calls_in_order (E : collaborators) (fh : string)
    (lex : text_lexer) (st st' : indexer_state) :
  buffer_terminated E st ->
  indexer_index_json E fh lex st = Ok tt st' ->
  new_events st st' <> [] ->
  exists url txt tokens,
    url_field E fh st = Some url /\ txt_field E fh st = Some txt /\
    forallb token_event tokens = true /\
    let document :=
      [url_blob url st; term_index_doc_begin_call] ++ tokens ++
      [text_blob E txt st;
       term_index_doc_end_call (wrap32 (prev_docID st + 1))] in
    new_events st st' =
      document ++
      maintenance_calls (term_index_maintain E (trace st ++ document)).
Proof.
  intros _ Hrun Hsome.
  assert (Hacc : too_large E fh st = false /\
                 exists url txt, url_field E fh st = Some url /\
                                 txt_field E fh st = Some txt).
  { destruct (too_large E fh st) eqn:Hl;
      [|destruct (url_field E fh st) as [url|] eqn:Hu;
        [destruct (txt_field E fh st) as [txt|] eqn:Ht|]];
      try (split; [reflexivity|]; exists url, txt; split; reflexivity);
      exfalso; apply Hsome;
      destruct (rejected_outcome E fh lex st _
                  (indexer_index_json_outcome E fh lex st)) as [out Heq];
      auto; rewrite Hrun in Heq; inversion Heq;
      apply new_events_app; reflexivity. }
  destruct Hacc as (Hl & url & txt & Hu & Ht).
  destruct (indexer_index_json_accepted E fh lex st url txt Hl Hu Ht)
    as [out Heq].
  rewrite Heq in Hrun. unfold bind in Hrun.
  set (st0 := after (loaded E fh st) [url_blob url st] out
                (cur_position st)) in *.
  destruct (fmemopen_ok E txt) eqn:Hopen.
  2:{ rewrite index_text_field_unopened in Hrun by assumption.
      discriminate Hrun. }
  rewrite index_text_field_opened in Hrun by assumption.
  destruct (foreach_handle_phase E (lex txt) (begun st0))
    as (tokens & Hph & _).
  destruct (foreach (handle E) (lex txt) (begun st0)) as [[] st1|];
    [|discriminate Hrun].
  cbn [result_state] in Hph. cbv zeta in Hrun.
  pose proof (tp_events _ _ _ Hph) as Hev.
  apply token_phase_begun in Hph as (T & D & _).
  unfold st0, loaded in T, D. cbn [prev_docID after trace] in T, D.
  assert (Hblob : text_blob E txt st1 = text_blob E txt st)
    by (unfold text_blob; now rewrite D).
  rewrite Hblob in Hrun.
  destruct (Z.eqb_spec
              (term_index_doc_end E (trace st1 ++ [text_blob E txt st]))
              (wrap32 (prev_docID st1 + 1))) as [Hd|];
    [|discriminate Hrun].
  rewrite Hd, D in Hrun.
  match type of Hrun with
  | context [index_maintain E ?s] =>
      destruct (index_maintain_calls E s) as [mout Hm];
      rewrite Hm in Hrun
  end.
  inversion Hrun; subst st'. clear Hrun Hm.
  exists url, txt, tokens.
  split; [exact Hu|]. split; [exact Ht|]. split; [exact Hev|].
  cbv zeta. unfold finalized, ended, after.
  cbn [prev_docID cur_position doc_json trace console].
  rewrite Hblob, T.
  erewrite new_events_app; [|same_list].
  same_list.
Qed.

(** Witness of X6: the end-to-end document. *)
Lemma indexed_document_calls_in_order_witness :
  let st' := result_state
               (indexer_index_json Scenario.fresh Scenario.envelope
                  Scenario.lexer initial_state) in
  exists url txt tokens,
    url_field Scenario.fresh Scenario.envelope initial_state = Some url /\
    txt_field Scenario.fresh Scenario.envelope initial_state = Some txt /\
    forallb token_event tokens = true /\
    let document :=
      [url_blob url initial_state; term_index_doc_begin_call] ++ tokens ++
      [text_blob Scenario.fresh txt initial_state;
       term_index_doc_end_call (wrap32 (prev_docID initial_state + 1))] in
    new_events initial_state st' =
      document ++
      maintenance_calls
        (term_index_maintain Scenario.fresh (trace initial_state ++ document)).
Proof.
  cbv zeta.
  apply (indexed_document_calls_in_order Scenario.fresh Scenario.envelope
           Scenario.lexer initial_state).
  - unfold buffer_terminated. vm_compute. lia.
  - vm_compute. reflexivity.
  - vm_compute. discriminate.
Defined.

(** X7.  A run of [indexer_index_json] that stops the process has written
    the URL blob under the docID-to-be before it stops, and leaves [prev_docID]
    as it was.  It stops at one of three places: before
    [term_index_doc_begin] when the memory file does not open; among the
    tokens, at a slice with an unknown tag; or right after
    [term_index_doc_end] returned another docID than the one predicted, the
    text blob written.  [term_index_maintain] is not called.  The [url] and
    the [text] are the strings found in the text of the read buffer, which
    has never been filled. *)
Theorem fatal_stop_leaves_the_url_blob (E : collaborators) (fh : string)
    (lex : text_lexer) (st st' : indexer_state) (why : fatal) :
  buffer_terminated E st ->
  indexer_index_json E fh lex st = Fatal why st' ->
  exists url txt tokens,
    url_field E fh st = Some url /\ txt_field E fh st = Some txt /\
    prev_docID st' = prev_docID st /\
    forallb token_event tokens = true /\
    ((why = exit_failure /\ fmemopen_ok E txt = false /\
      new_events st st' = [url_blob url st]) \/
     (why = assert_failed "0" /\ Exists unknown_tag (lex txt) /\
      new_events st st' =
        url_blob url st :: term_index_doc_begin_call :: tokens) \/
     (why = assert_failed "docID == prev_docID + 1" /\
      exists d, d <> wrap32 (prev_docID st + 1) /\
        new_events st st' =
          url_blob url st :: term_index_doc_begin_call :: tokens ++
          [text_blob E txt st; term_index_doc_end_call d])).
Proof.
  intros _ Hrun.
  pose proof (indexer_index_json_outcome E fh lex st) as Hout.
  rewrite Hrun in Hout.
  inversion Hout as [ | url txt out why' st1 _ Hu Ht _ Htf
                      | url txt out _ Hu Ht Hopen | ]; subst.
  - inversion Htf as [st2 tokens Hph Hex | st2 tokens d Hph Hd Hne | ];
      subst; pose proof (tp_events _ _ _ Hph) as Hev;
      apply token_phase_begun in Hph as (T & D & _);
      unfold loaded in T, D; cbn [prev_docID after trace] in T, D;
      exists url, txt, tokens;
      (split; [exact Hu|]); (split; [exact Ht|]).
    + split; [exact D|]. split; [exact Hev|]. right. left.
      split; [reflexivity|]. split; [exact Hex|].
      apply new_events_app. rewrite T. same_list.
    + split; [exact D|]. split; [exact Hev|]. right. right.
      split; [reflexivity|].
      exists (term_index_doc_end E (trace st2 ++ [text_blob E txt st2])).
      split; [exact Hne|].
      apply new_events_app. unfold ended, after. cbn [trace].
      rewrite T. unfold text_blob. rewrite D. same_list.
  - exists url, txt, []. split; [exact Hu|]. split; [exact Ht|].
    split; [reflexivity|]. split; [reflexivity|]. left.
    split; [reflexivity|]. split; [exact Hopen|].
    apply new_events_app. reflexivity.
Qed.

(** Witness of X7: a term index that answers 7 for the first document. *)
Lemma fatal_stop_leaves_the_url_blob_witness :
  exists st',
    indexer_index_json (Scenario.stores 7 false) Scenario.envelope
      Scenario.lexer initial_state =
      Fatal (assert_failed "docID == prev_docID + 1") st' /\
    prev_docID st' = 0 /\
    hd_error (new_events initial_state st') =
      Some (blob_index_write_call blob_index_url 1 "http://x" 8).
Proof.
  set (r := indexer_index_json _ _ _ _).
  assert (Hr : r = Fatal (assert_failed "docID == prev_docID + 1")
                 (result_state r)) by (vm_compute; reflexivity).
  exists (result_state r). split; [exact Hr|].
  assert (Hbuf : buffer_terminated (Scenario.stores 7 false) initial_state)
    by (unfold buffer_terminated; vm_compute; lia).
  destruct (fatal_stop_leaves_the_url_blob _ _ _ _ _ _ Hbuf Hr)
    as (url & txt & tokens & Hu & _ & Hprev & _ & Hcase).
  split; [exact Hprev|].
  assert (Hurl : url = "http://x"%string)
    by (vm_compute in Hu; now inversion Hu).
  destruct Hcase as [(_ & _ & ->) | [(_ & _ & ->) | (_ & d & _ & ->)]];
    rewrite Hurl; reflexivity.
Defined.

(** ** The read buffer *)

Lemma string_firstn_all (n : nat) (s : string) :
  (String.length s <= n)%nat -> string_firstn n s = s.
Proof.
  revert s. induction n as [|n IH]; intros [|c s] H; simpl in *;
    try reflexivity; try lia.
  now rewrite IH by lia.
Qed.

Lemma string_skipn_all (n : nat) (s : string) :
  (String.length s <= n)%nat -> string_skipn n s = EmptyString.
Proof.
  revert s. induction n as [|n IH]; intros [|c s] H; simpl in *;
    try reflexivity; try lia.
  apply IH. lia.
Qed.

Lemma c_str_app (a b : string) :
  c_str a = a -> c_str (a ++ b) = (a ++ c_str b)%string.
Proof.
  induction a as [|c a IH]; intros H; [reflexivity|].
  cbn [c_str append] in *. destruct (Ascii.eqb c zero); [discriminate H|].
  inversion H as [Ha]. rewrite Ha. now rewrite IH.
Qed.

(** The text handed to the JSON parser for an envelope shorter than the
    buffer and free of NUL bytes. *)
Lemma json_text_stale_tail (E : collaborators) (fh : string)
    (st : indexer_state) :
  (String.length fh < MAX_CORPUS_FILE_SZ E)%nat ->
  c_str fh = fh ->
  let tail := string_skipn (String.length fh) (doc_json st) in
  too_large E fh st = false /\
  json_text E fh st = (fh ++ c_str tail)%string /\
  ((String.length (doc_json st) <= String.length fh)%nat ->
   json_text E fh st = fh).
Proof.
  intros Hfh Hnul tail.
  assert (Hread : fread E fh (doc_json st) =
                  (String.length fh, (fh ++ tail)%string)).
  { unfold fread. now rewrite string_firstn_all by lia. }
  split; [|split].
  - unfold too_large. rewrite Hread. cbn [fst]. apply Nat.eqb_neq. lia.
  - unfold json_text, loaded. cbn [doc_json]. rewrite Hread. cbn [snd].
    now apply c_str_app.
  - intros Hshort. unfold json_text, loaded. cbn [doc_json].
    rewrite Hread. cbn [snd]. unfold tail.
    rewrite string_skipn_all by assumption.
    assert (Hnil : forall s : string, (s ++ EmptyString)%string = s)
      by (induction s as [|c s IH]; simpl; [reflexivity | now rewrite IH]).
    now rewrite Hnil.
Qed.

Lemma string_skipn_length (n : nat) (s : string) :
  String.length (string_skipn n s) = (String.length s - n)%nat.
Proof.
  revert s. induction n as [|n IH]; intros [|c s]; simpl; auto.
Qed.

Lemma string_append_length (a b : string) :
  String.length (a ++ b) = (String.length a + String.length b)%nat.
Proof. induction a as [|c a IH]; simpl; auto. Qed.

(** A read that does not fill the buffer leaves it terminated: the
    condition holds along a corpus as long as no file reaches the size of
    the buffer. *)
Lemma buffer_terminated_kept (E : collaborators) (fh : string)
    (lex : text_lexer) (st st' : indexer_state) :
  buffer_terminated E st ->
  (String.length fh < MAX_CORPUS_FILE_SZ E)%nat ->
  indexer_index_json E fh lex st = Ok tt st' ->
  buffer_terminated E st'.
Proof.
  intros Hbuf Hfh Hrun.
  destruct (json_outcome_events E fh lex st _
              (indexer_index_json_outcome E fh lex st)) as (evs & _ & _ & H).
  rewrite Hrun in H. destruct H as [J _].
  unfold buffer_terminated in *. rewrite J. unfold loaded, fread.
  cbn [doc_json snd].
  rewrite string_append_length, string_skipn_length, string_firstn_length.
  lia.
Qed.

(** X8.  [fread] does not end the envelope it reads with a NUL, and the
    static buffer is not cleared between documents.  So what
    [indexer_index_json] does with an envelope (shorter than the buffer,
    free of NUL bytes, read into a buffer that was never filled) is decided
    by what [get_json_val] finds in the envelope followed by what an earlier,
    longer envelope left behind it, up to the first NUL.  If that text has a
    string under [url] and one under [text], these two are indexed: the URL
    blob is written and [index_text_field] runs on that text string.  If
    either is missing the call returns without a call on a store. *)
Theorem envelope_is_parsed_with_the_stale_tail (E : collaborators)
    (fh : string) (lex : text_lexer) (st : indexer_state) :
  (String.length fh < MAX_CORPUS_FILE_SZ E)%nat ->
  buffer_terminated E st ->
  c_str fh = fh ->
  let tail := string_skipn (String.length fh) (doc_json st) in
  let text := (fh ++ c_str tail)%string in
  forall (url txt : option string) (st1 st2 : indexer_state),
    get_json_val E text ["url"%string] st = Ok url st1 ->
    get_json_val E text ["text"%string] st = Ok txt st2 ->
    match url, txt with
    | Some u, Some t =>
        exists out,
          indexer_index_json E fh lex st =
          (index_text_field E t lex ;;; index_maintain E)
            (after (loaded E fh st) [url_blob u st] out (cur_position st))
    | _, _ =>
        exists st',
          indexer_index_json E fh lex st = Ok tt st' /\
          trace st' = trace st /\
          prev_docID st' = prev_docID st /\
          cur_position st' = cur_position st
    end.
Proof.
  intros Hfh _ Hnul tail text url txt st1 st2 Hu Ht.
  destruct (json_text_stale_tail E fh st Hfh Hnul) as (Hl & Htext & _).
  fold tail in Htext. fold text in Htext.
  destruct (get_json_val_run E text ["url"%string] st) as [out1 Hrun1].
  destruct (get_json_val_run E text ["text"%string] st) as [out2 Hrun2].
  rewrite Hrun1 in Hu. rewrite Hrun2 in Ht.
  injection Hu as Hu _. injection Ht as Ht _.
  assert (Hurl : url_field E fh st = url)
    by (unfold url_field; now rewrite Htext).
  assert (Htxt : txt_field E fh st = txt)
    by (unfold txt_field; now rewrite Htext).
  assert (Hrejected :
            url_field E fh st = None \/ txt_field E fh st = None ->
            exists st',
              indexer_index_json E fh lex st = Ok tt st' /\
              trace st' = trace st /\
              prev_docID st' = prev_docID st /\
              cur_position st' = cur_position st).
  { intros Hrej.
    destruct (rejected_outcome E fh lex st _
                (indexer_index_json_outcome E fh lex st)) as [out Hrun];
      [now right|].
    rewrite Hrun. eexists. split; [reflexivity|].
    unfold after, loaded. cbn. rewrite app_nil_r. auto. }
  destruct url as [u|]; [destruct txt as [t|]|].
  - now apply indexer_index_json_accepted.
  - apply Hrejected. now right.
  - apply Hrejected. now left.
Qed.

(** Witness of X8: an empty corpus file read after the end-to-end envelope.
    The buffer still holds that envelope, and its document is indexed
    again. *)
Lemma envelope_is_parsed_with_the_stale_tail_witness :
  let st := result_state
              (indexer_index_json Scenario.fresh Scenario.envelope
                 Scenario.lexer initial_state) in
  exists out,
    indexer_index_json Scenario.fresh EmptyString Scenario.lexer st =
    (index_text_field Scenario.fresh Scenario.text Scenario.lexer ;;;
     index_maintain Scenario.fresh)
      (after (loaded Scenario.fresh EmptyString st)
         [url_blob "http://x" st] out (cur_position st)).
Proof.
  intros st.
  apply (envelope_is_parsed_with_the_stale_tail Scenario.fresh EmptyString
           Scenario.lexer st ltac:(vm_compute; lia)
           ltac:(unfold buffer_terminated; vm_compute; lia) eq_refl
           (Some "http://x"%string) (Some Scenario.text) st st);
    vm_compute; reflexivity.
Defined.

(** ** The offset keys of a corpus *)

Lemma maintenance_events_no_puts (evs : list event) :
  forallb maintenance_event evs = true -> offset_puts evs = [].
Proof.
  induction evs as [|e evs IH]; simpl; [auto|].
  intros H. apply andb_prop in H as [He Hevs].
  destruct e; simpl in *; try discriminate; auto.
Qed.

(** The offset keys of one document that returns: the docID-to-be with the
    positions from the current one on. *)
Lemma json_outcome_keys (E : collaborators) (fh : string) (lex : text_lexer)
    (st st1 : indexer_state) :
  json_outcome E fh lex st (Ok tt st1) ->
  offset_keys (new_events st st1) =
  map (mk_from (wrap32 (prev_docID st + 1)))
    (pos_seq (cur_position st) (length (offset_puts (new_events st st1)))).
Proof.
  intros Hout.
  inversion Hout as [out Hrej | | | url txt out st2 mevs mout _ _ _ _ Htf Hm];
    subst.
  - rewrite (new_events_app _ _ []) by reflexivity. reflexivity.
  - inversion Htf as [ | | st3 evs d Hph Hd Heq]; subst.
    pose proof (tp_keys _ _ _ Hph) as K.
    pose proof (tp_positions _ _ _ Hph) as P.
    apply token_phase_begun in Hph as (T & _).
    unfold predicted_docID, begun, loaded in K, P, T.
    cbn [prev_docID cur_position after trace] in K, P, T.
    erewrite new_events_app.
    2:{ unfold finalized, ended, after. cbn [trace]. rewrite T. same_list. }
    unfold offset_keys.
    assert (Hputs : forall tail,
               offset_puts
                 (url_blob url st :: term_index_doc_begin_call :: evs ++ tail) =
               offset_puts evs ++ offset_puts tail)
      by (intros tail; cbn; apply offset_puts_app).
    rewrite Hputs. cbn [offset_puts flat_map app].
    fold (offset_puts mevs). rewrite (maintenance_events_no_puts _ Hm).
    rewrite app_nil_r. fold (offset_keys evs).
    now rewrite (keyed_offset_keys _ _ K), P.
Qed.

(** As long as no position handed out is the last one, the counter has not
    wrapped around. *)
Lemma pos_seq_below (p : Z) (n : nat) :
  0 <= p < uint32_modulus ->
  Forall (fun q => q < uint32_modulus - 1) (pos_seq p n) ->
  p + Z.of_nat n <= uint32_modulus.
Proof.
  revert p. induction n as [|n IH]; intros p Hp HF; [simpl; lia|].
  cbn [pos_seq] in HF. inversion HF as [|q l Hq Hl]; subst.
  rewrite wrap32_small in Hl by lia.
  specialize (IH (p + 1) ltac:(lia) Hl). lia.
Qed.

Lemma corpus_offset_keys (E : collaborators)
    (files : list (string * text_lexer)) :
  forall st st',
    index_corpus E files st = Ok tt st' ->
    cur_position st = 0 -> 0 <= prev_docID st ->
    prev_docID st +
      Z.of_nat (length (doc_end_rets (new_events st st'))) < uint32_modulus ->
    Forall (fun k => from_pos k < uint32_modulus - 1)
      (offset_keys (new_events st st')) ->
    NoDup (offset_keys (new_events st st')) /\
    Forall (fun k => prev_docID st < from_docID k)
      (offset_keys (new_events st st')) /\
    cur_position st' = 0.
Proof.
  induction files as [|[fh lex] files IH]; intros st st' Hrun Hpos Hprev Hids Hn.
  - inversion Hrun; subst. unfold new_events. rewrite skipn_all.
    repeat split; auto; constructor.
  - unfold index_corpus in Hrun. cbn [foreach fst snd] in Hrun.
    unfold bind at 1 in Hrun.
    pose proof (indexer_index_json_outcome E fh lex st) as Hout.
    destruct (indexer_index_json E fh lex st) as [[] st1|]; [|discriminate].
    fold (index_corpus E files st1) in Hrun.
    destruct (json_outcome_events E fh lex st _ Hout) as (evs1 & T1 & _ & _ & H1).
    cbn [result_state] in T1.
    pose proof (json_outcome_keys E fh lex st st1 Hout) as K1.
    rewrite (new_events_app _ _ _ T1) in K1.
    destruct (index_corpus_docIDs E files st1) as (evs2 & T2 & _).
    rewrite Hrun in T2. cbn [result_state] in T2.
    assert (T : trace st' = trace st ++ evs1 ++ evs2)
      by (rewrite T2, T1; now rewrite app_assoc).
    rewrite (new_events_app _ _ _ T) in *.
    specialize (IH st1 st' Hrun).
    rewrite (new_events_app _ _ _ T2) in IH.
    rewrite doc_end_rets_app, length_app, Nat2Z.inj_add in Hids.
    unfold offset_keys in *. rewrite offset_puts_app, map_app in Hn.
    apply Forall_app in Hn as [Hn1 Hn2].
    rewrite offset_puts_app, map_app.
    destruct H1 as [(Hnil & Hp & Hc & _) | (_ & _ & _ & _ & _ & Hd & Hp & Hc)].
    + subst evs1. cbn [offset_puts flat_map map app length] in *.
      rewrite Hp in IH. apply IH; try lia; congruence.
    + rewrite Hd in Hids. cbn [length] in Hids.
      assert (Hw : wrap32 (prev_docID st + 1) = prev_docID st + 1)
        by (apply wrap32_small; lia).
      rewrite Hw in *.
      destruct IH as (N2 & F2 & C2); try lia; try assumption.
      split; [|split; [|exact C2]].
      * apply NoDup_app.
        -- rewrite K1, Hpos. apply NoDup_map_NoDup_ForallPairs.
           ++ intros i j _ _ H. now inversion H.
           ++ apply pos_seq_NoDup; [lia|].
              apply pos_seq_below; [unfold uint32_modulus; lia|].
              rewrite K1, Hpos, Forall_map in Hn1. exact Hn1.
        -- exact N2.
        -- intros k Hk1 Hk2. rewrite K1 in Hk1.
           apply in_map_iff in Hk1 as (q & <- & _).
           rewrite Forall_forall in F2. specialize (F2 _ Hk2).
           cbn in F2. lia.
      * apply Forall_app. split.
        -- rewrite K1. apply Forall_forall. intros k Hk.
           apply in_map_iff in Hk as (q & <- & _). cbn. lia.
        -- eapply Forall_impl; [|exact F2]. cbn. intros k Hk. lia.
Qed.

(** X9.  Over a corpus indexed to the end no offset key is written twice:
    every document starts again at position 0 under a docID of its own, so
    that, as long as neither counter wraps around, the offset writes of the
    whole run go to pairwise different (docID, position) keys; and the run
    ends, as it began, at position 0.  The docID counter does not wrap when
    the docIDs handed out stay below 2^32; the position counter does not
    wrap when no offset write is made at its last value, 2^32 - 1, after
    which the increment of that token would take it back to 0. *)
Theorem offset_keys_distinct_over_corpus (E : collaborators)
    (files : list (string * text_lexer)) (st st' : indexer_state) :
  index_corpus E files st = Ok tt st' ->
  cur_position st = 0 -> 0 <= prev_docID st ->
  prev_docID st +
    Z.of_nat (length (doc_end_rets (new_events st st'))) < uint32_modulus ->
  Forall (fun k => from_pos k < uint32_modulus - 1)
    (offset_keys (new_events st st')) ->
  NoDup (offset_keys (new_events st st')) /\ cur_position st' = 0.
Proof.
  intros Hrun Hpos Hprev Hids Hn.
  destruct (corpus_offset_keys E files st st' Hrun Hpos Hprev Hids Hn)
    as (N & _ & C).
  auto.
Qed.

(** Witness of X9: the end-to-end document, indexed twice. *)
Lemma offset_keys_distinct_over_corpus_witness :
  NoDup
    (offset_keys
       (new_events initial_state
          (result_state
             (index_corpus Scenario.fresh
                [(Scenario.envelope, Scenario.lexer);
                 (Scenario.envelope, Scenario.lexer)] initial_state)))).
Proof.
  set (r := index_corpus _ _ _).
  assert (Hr : r = Ok tt (result_state r)) by (vm_compute; reflexivity).
  apply (offset_keys_distinct_over_corpus _ _ _ _ Hr).
  - reflexivity.
  - vm_compute. discriminate.
  - vm_compute. reflexivity.
  - assert (Hall : forallb (fun k => from_pos k <? uint32_modulus - 1)
                     (offset_keys (new_events initial_state (result_state r)))
                   = true) by (vm_compute; reflexivity).
    apply Forall_forall. intros k Hk. apply Z.ltb_lt.
    exact (proj1 (forallb_forall _ _) Hall k Hk).
Defined.

(** ** Rejected envelopes *)






(** ** The stores after a corpus *)

Lemma keyed_docIDs (d : doc_id_t) (evs : list event) :
  Forall (keyed_by d) evs ->
  Forall (fun k => from_docID k = d) (offset_keys evs) /\
  Forall (fun m => fst (fst m) = d) (math_adds evs).
Proof.
  unfold offset_keys.
  induction 1 as [|e evs He _ [IH1 IH2]]; [split; constructor|].
  destruct e; simpl in *; auto.
Qed.

(** X11.  After a corpus indexed to the end the stores hold the same
    documents: for every docID the term index returned there is exactly one
    write to the URL blob index and one to the text blob index, in that order
    and no blob write besides, and every offset write and every math-index add
    is filed under one of those docIDs. *)
Theorem stores_hold_the_same_documents (E : collaborators)
    (files : list (string * text_lexer)) (st st' : indexer_state) :
  index_corpus E files st = Ok tt st' ->
  let evs := new_events st st' in
  blob_keys evs = blobs_of (doc_end_rets evs) /\
  Forall (fun k => In (from_docID k) (doc_end_rets evs)) (offset_keys evs) /\
  Forall (fun m => In (fst (fst m)) (doc_end_rets evs)) (math_adds evs).
Proof.
  revert st st'.
  induction files as [|[fh lex] files IH]; intros st st' Hrun.
  - inversion Hrun; subst. cbv zeta. unfold new_events. rewrite skipn_all.
    repeat split; constructor.
  - unfold index_corpus in Hrun. cbn [foreach fst snd] in Hrun.
    unfold bind at 1 in Hrun.
    pose proof (indexer_index_json_outcome E fh lex st) as Hout.
    destruct (indexer_index_json E fh lex st) as [[] st1|]; [|discriminate].
    fold (index_corpus E files st1) in Hrun.
    destruct (json_outcome_events E fh lex st _ Hout) as (evs1 & T1 & K & _ & H1).
    cbn [result_state] in T1.
    destruct (index_corpus_docIDs E files st1) as (evs2 & T2 & _).
    rewrite Hrun in T2. cbn [result_state] in T2.
    assert (T : trace st' = trace st ++ evs1 ++ evs2)
      by (rewrite T2, T1; now rewrite app_assoc).
    specialize (IH st1 st' Hrun). cbv zeta in *.
    rewrite (new_events_app _ _ _ T2) in IH.
    rewrite (new_events_app _ _ _ T).
    destruct IH as (B2 & O2 & M2).
    destruct (keyed_docIDs _ _ K) as [KO KM].
    unfold blob_keys, blobs_of, offset_keys in *.
    rewrite blob_writes_app, doc_end_rets_app, offset_puts_app, math_adds_app.
    rewrite !map_app, flat_map_app.
    assert (Hin : forall (A : Type) (f : A -> doc_id_t) (l : list A),
               Forall (fun x => In (f x) (doc_end_rets evs2)) l ->
               Forall (fun x => In (f x) (doc_end_rets evs1 ++ doc_end_rets evs2))
                 l).
    { intros A f l HF. eapply Forall_impl; [|exact HF].
      intros x Hx. apply in_or_app. now right. }
    destruct H1 as [(Hnil & _) | (url & txt & _ & _ & Hb & Hd & _)].
    + subst evs1. cbn. auto.
    + rewrite Hb, B2. split; [now rewrite Hd|].
      split; apply Forall_app; split.
      * eapply Forall_impl; [|exact KO]. intros k ->. rewrite Hd. now left.
      * now apply (Hin _ from_docID).
      * eapply Forall_impl; [|exact KM]. intros m ->. rewrite Hd. now left.
      * now apply (Hin _ (fun m => fst (fst m))).
Qed.

(** Witness of X11: a rejected envelope between two copies of the end-to-end
    document leaves the blobs of the docIDs 1 and 2 and no other. *)
Lemma stores_hold_the_same_documents_witness :
  blob_keys
    (new_events initial_state
       (result_state
          (index_corpus Scenario.fresh
             [(Scenario.envelope, Scenario.lexer);
              (Scenario.no_text, Scenario.lexer);
              (Scenario.envelope, Scenario.lexer)] initial_state))) =
  [(blob_index_url, 1); (blob_index_txt, 1);
   (blob_index_url, 2); (blob_index_txt, 2)].
Proof.
  set (r := index_corpus _ _ _).
  assert (Hr : r = Ok tt (result_state r)) by (vm_compute; reflexivity).
  destruct (stores_hold_the_same_documents _ _ _ _ Hr) as (Hb & _).
  rewrite Hb. vm_compute. reflexivity.
Defined.

(** ** What the term index and the offset store receive *)

Lemma slice_events_terms_ranges (E : collaborators) (st : indexer_state)
    (sl : lex_slice) :
  doc_terms (slice_events E st sl) = slice_terms E sl /\
  offset_values (slice_events E st sl) = slice_ranges E sl.
Proof.
  unfold slice_events, slice_terms, slice_ranges, math_slice_events.
  destruct (slice_type sl); try (split; reflexivity).
  - destruct (code (tex_parse E (strip_math_tag E (mb_str sl))));
      split; reflexivity.
  - split; [apply seg_events_terms | apply seg_events_values].
Qed.

Lemma offset_values_app (a b : list event) :
  offset_values (a ++ b) = offset_values a ++ offset_values b.
Proof. unfold offset_values. now rewrite offset_puts_app, map_app. Qed.

(** X12.  When the slices of a document are all handled, the term index
    has received, in the order of the slices, the sentinel for each math
    slice, the lower-cased string of each English-text slice and the
    segments of each plain-text slice; the offset store has been asked to
    record, token by token in the same order, the slice's offset and length
    (the length with the tag, for a math slice) or the segment's shifted
    offset and length.  Neither depends on what the parser or a store
    reports. *)
Theorem terms_and_ranges_follow_the_slices (E : collaborators)
    (slices : list lex_slice) (st st' : indexer_state) :
  foreach (handle E) slices st = Ok tt st' ->
  doc_terms (new_events st st') = flat_map (slice_terms E) slices /\
  offset_values (new_events st st') = flat_map (slice_ranges E) slices.
Proof.
  revert st st'. induction slices as [|sl slices IH]; intros st st' Hrun.
  - inversion Hrun; subst. unfold new_events. rewrite skipn_all.
    split; reflexivity.
  - rewrite foreach_handle_cons in Hrun.
    pose proof (slice_events_phase E sl st) as Hph.
    destruct (slice_events_terms_ranges E st sl) as [Ht Hr].
    destruct (indexer_handle_slice E sl st) as [sl' st1|why st1];
      [|discriminate Hrun].
    cbn [result_state] in Hph.
    destruct (IH _ _ Hrun) as [IHt IHr].
    destruct (foreach_handle_phase E slices st1) as (evs2 & Hph2 & _).
    rewrite Hrun in Hph2. cbn [result_state] in Hph2.
    rewrite (new_events_app _ _ _ (tp_trace _ _ _ Hph2)) in IHt, IHr.
    rewrite (new_events_app _ _ (slice_events E st sl ++ evs2)).
    + cbn [flat_map].
      now rewrite doc_terms_app, offset_values_app, Ht, Hr, IHt, IHr.
    + rewrite (tp_trace _ _ _ Hph2), (tp_trace _ _ _ Hph).
      now rewrite app_assoc.
Qed.

(** Witness of X12: the slices of the end-to-end document, with an offset
    store that refuses every write. *)
Lemma terms_and_ranges_follow_the_slices_witness :
  doc_terms
    (new_events initial_state
       (result_state
          (foreach (handle (Scenario.stores 1 true))
             (Scenario.lexer Scenario.text) initial_state))) =
  ["the "%string; "math_exp"%string; "is"%string; "positive"%string].
Proof.
  set (r := foreach _ _ _).
  assert (Hr : r = Ok tt (result_state r)) by (vm_compute; reflexivity).
  destruct (terms_and_ranges_follow_the_slices _ _ _ _ Hr) as [Ht _].
  rewrite Ht. vm_compute. reflexivity.
Defined.
